(** * wslbridge backend: control-packet reader and I/O loop

    A shallow embedding of [common/SocketIo.h] and
    [backend/wslbridge-backend.cc], followed by the properties of the
    control-packet reader, of the credit window and of the supervisor.

    Conventions.
    - Machine integers are [Z] with the wrap-around written out: [size_t]
      reduces modulo 2^64, [int32_t] is the two's complement reduction to
      32 bits.  The target is Linux/x86-64 (the backend uses [forkpty]):
      [int] is 32 bits wide, [size_t] and [ssize_t] are 64 bits wide, memory
      is little-endian.
    - [assert] is active (no [NDEBUG]): a failing assertion writes its
      message to standard error and aborts the process.
    - Results of system calls are inputs of the model.  The program leaves
      the disposition of every signal as it is at the start: a [write] that
      raises SIGPIPE ends the process. *)

From Stdlib Require Import String Ascii.
From Stdlib Require Import ZArith List Lia Bool.
From Stdlib.Strings Require Import Byte.
From Stdlib Require Import DecimalString.
Import ListNotations.
Open Scope Z_scope.

(* ================================================================= *)
(** * common/SocketIo.h *)

Module SocketIo.

(** ** Integer types *)

Definition size_t (x : Z) : Z := x mod 2 ^ 64.
Definition int32_t (x : Z) : Z := (x + 2 ^ 31) mod 2 ^ 32 - 2 ^ 31.
Definition uint16_t (x : Z) : Z := x mod 2 ^ 16.
Definition uint32_t (x : Z) : Z := x mod 2 ^ 32.
Definition INT32_MAX : Z := 2 ^ 31 - 1.

(** ** Records of the header *)

Record TermSize := { cols : Z; rows : Z }.

(** [TermSize::operator==] and [operator!=]. *)
Definition TermSize_eq (a o : TermSize) : bool :=
  (cols a =? cols o) && (rows a =? rows o).
Definition TermSize_ne (a o : TermSize) : bool := negb (TermSize_eq a o).

Record WindowParams := {
  size : Z;       (* Maximum number of bytes in flight. *)
  threshold : Z   (* Minimum remaining window to initiate I/O. *)
}.

(** [enum class Type { SetSize, IncreaseWindow, ChildExitStatus }]: the
    enumerators are 0, 1 and 2 and the underlying type is [int]; a value read
    from the wire can be any [int]. *)
Definition SetSize : Z := 0.
Definition IncreaseWindow : Z := 1.
Definition ChildExitStatus : Z := 2.

(** [struct Packet]: the tag and the four bytes of the union [u], kept as the
    little-endian word they form. *)
Record Packet := { type : Z; u : Z }.

(** Members of the union. *)
Definition termSize (p : Packet) : TermSize :=
  {| cols := uint16_t (u p); rows := uint16_t (u p / 2 ^ 16) |}.
Definition windowAmount (p : Packet) : Z := int32_t (u p).
Definition exitStatus (p : Packet) : Z := int32_t (u p).

Definition sizeof_Packet : Z := 8.
(** [std::array<Packet, 256> buf]. *)
Definition sizeof_buf : Z := 256 * sizeof_Packet.

(** ** Raw memory *)

(** The unsigned little-endian value of a run of bytes. *)
Fixpoint le (bs : list byte) : Z :=
  match bs with
  | [] => 0
  | b :: bs' => Z.of_N (Byte.to_N b) + 256 * le bs'
  end.

(** [sub l off n]: the [n] bytes of [l] from offset [off]. *)
Definition sub (l : list byte) (off n : Z) : list byte :=
  firstn (Z.to_nat n) (skipn (Z.to_nat off) l).

(** [store l off data]: [l] with [data] written at offset [off]. *)
Definition store (l : list byte) (off : Z) (data : list byte) : list byte :=
  firstn (Z.to_nat off) l ++ data
    ++ skipn (Z.to_nat off + length data) l.

(** The [Packet] that eight bytes of memory hold. *)
Definition decode (raw : list byte) : Packet :=
  {| type := int32_t (le (firstn 4 raw));
     u := le (firstn 4 (skipn 4 raw)) |}.

(** [buf[i]] read through the [std::array<Packet, 256>] view of the bytes. *)
Definition packetAt (bufRaw : list byte) (i : Z) : Packet :=
  decode (sub bufRaw (i * sizeof_Packet) sizeof_Packet).

(** ** System calls *)

(** Modelled from the spec: [readRestarting] is declared in this header and
    defined in a file that is not at hand.  It invokes the OS read, retries
    when a signal interrupts it, and returns what the read returned: the
    number of bytes stored, zero at end of file, a negative value on any
    other error.  [Got data] stored [data] at the pointer and returned its
    length, [Err] returned -1. *)
Inductive ReadResult := Got (data : list byte) | Err.

Definition amtOf (r : ReadResult) : Z :=
  match r with Got data => Z.of_nat (length data) | Err => -1 end.

Definition dataOf (r : ReadResult) : list byte :=
  match r with Got data => data | Err => [] end.

(** [read] never returns more than [count] bytes. *)
Definition readPossible (count : Z) (r : ReadResult) : bool :=
  amtOf r <=? count.

(** ** How a call can end *)

(** The ways the process stops: [exit(code)], or [abort()] from a failed
    assertion. *)
Inductive Stop := ExitCode (code : Z) | SigAbort.

(** The outcome of a handler call [void packetHandlerFunc(T*, const Packet&)]:
    it returns with the user object updated, or stops the process. *)
Inductive Handled (T : Type) := Returned (t : T) | Stopped (s : Stop).
Arguments Returned {T} t.
Arguments Stopped {T} s.

(** The outcome of [void readFailure()]. *)
Inductive Hook := HookReturns | HookStops (s : Stop).

(** ** The packets of a byte stream, as the wire format defines them *)

(** The whole fixed-size records of a stream: record [i] is made of the bytes
    from [i * sizeof(Packet)] on; the bytes after the last whole record are
    the trailing partial packet. *)
Definition wholePackets (stream : list byte) : list Packet :=
  map (fun i => decode (sub stream (Z.of_nat i * sizeof_Packet) sizeof_Packet))
      (seq 0 (Z.to_nat (Z.of_nat (length stream) / sizeof_Packet))).

Definition trailingBytes (stream : list byte) : list byte :=
  skipn (Z.to_nat (Z.of_nat (length stream) / sizeof_Packet * sizeof_Packet))
        stream.

(** Running a handler over a list of packets, in order. *)
Fixpoint handleAll {T : Type} (h : T -> Packet -> Handled T) (t : T)
    (ps : list Packet) : Handled T :=
  match ps with
  | [] => Returned t
  | p :: ps' =>
      match h t p with
      | Returned t' => handleAll h t' ps'
      | Stopped s => Stopped s
      end
  end.

(** The bytes a sequence of reads delivered. *)
Definition bytesOf (reads : list ReadResult) : list byte :=
  concat (map dataOf reads).

(** The reads that the control socket can give to the reader, [stream]
    being the bytes read before: a read returns no more than the room that
    the buffer has beside the pending partial packet, which is the count
    the reader asks for. *)
Fixpoint readsFit (stream : list byte) (reads : list ReadResult) : bool :=
  match reads with
  | [] => true
  | r :: rest =>
      (amtOf r <=? sizeof_buf - Z.of_nat (length (trailingBytes stream)))
      && readsFit (stream ++ dataOf r) rest
  end.

(** ** readControlSocketThread *)

Section ReadControlSocketThread.

Context {T : Type}.
Variable packetHandlerFunc : T -> Packet -> Handled T.
Variable readFailure : Hook.

(** The locals of the thread and the user object; [dispatched] records the
    calls of the handler, oldest first. *)
Record Thread := {
  userObj : T;
  bufRaw : list byte;
  accum : Z;
  dispatched : list Packet
}.

(** How the thread function proceeds: it goes on in a new state, a hook
    stopped the process, its own assertion failed, or its [memmove] left
    the buffer. *)
Inductive Flow :=
| Goes (th : Thread)
| Ends (s : Stop)
| AssertFailed
| OutOfBounds.

(** The byte count of the next [readRestarting] call. *)
Definition readCount (th : Thread) : Z := size_t (sizeof_buf - accum th).

(** [for (size_t i = 0; i < fullPacketCount; ++i)
       packetHandlerFunc(userObj, buf[i]);]
    with [k] iterations left from index [i]; [++i] cannot wrap, [i] being
    less than [fullPacketCount]. *)
Fixpoint forPackets (k : nat) (i : Z) (th : Thread) : Flow :=
  match k with
  | O => Goes th
  | S k' =>
      let p := packetAt (bufRaw th) i in
      match packetHandlerFunc (userObj th) p with
      | Returned t' =>
          forPackets k' (i + 1)
            {| userObj := t'; bufRaw := bufRaw th; accum := accum th;
               dispatched := dispatched th ++ [p] |}
      | Stopped s => Ends s
      end
  end.

(** The part of the loop body after the read returned [r]. *)
Definition afterRead (th : Thread) (r : ReadResult) : Flow :=
  let amt := amtOf r in
  match (if amt <=? 0 then readFailure else HookReturns) with
  | HookStops s => Ends s
  | HookReturns =>
      let th1 :=
        {| userObj := userObj th;
           bufRaw := store (bufRaw th) (accum th) (dataOf r);
           accum := size_t (accum th + amt);
           dispatched := dispatched th |} in
      if accum th1 <=? sizeof_buf then
        let fullPacketCount := accum th1 / sizeof_Packet in
        match forPackets (Z.to_nat fullPacketCount) 0 th1 with
        | Goes th2 =>
            let fullPacketBytes := size_t (fullPacketCount * sizeof_Packet) in
            let accum' := size_t (accum th2 - fullPacketBytes) in
            if fullPacketBytes + accum' <=? sizeof_buf then
              Goes {| userObj := userObj th2;
                      bufRaw := store (bufRaw th2) 0
                                  (sub (bufRaw th2) fullPacketBytes accum');
                      accum := accum';
                      dispatched := dispatched th2 |}
            else OutOfBounds
        | other => other
        end
      else AssertFailed
  end.

(** One iteration of [while (true)]; [None] when the read could not have
    returned [r]. *)
Definition iteration (th : Thread) (r : ReadResult) : option Flow :=
  if readPossible (readCount th) r then Some (afterRead th r) else None.

(** The thread run on a sequence of read results; nothing follows the read
    at which the thread stopped. *)
Fixpoint readControlSocketThread (th : Thread) (reads : list ReadResult)
  : option Flow :=
  match reads with
  | [] => Some (Goes th)
  | r :: rest =>
      match iteration th r with
      | Some (Goes th') => readControlSocketThread th' rest
      | Some other => match rest with [] => Some other | _ => None end
      | None => None
      end
  end.

(** The thread at its start: [accum = 0], the buffer not yet written. *)
Definition start (t : T) (buf0 : list byte) : Thread :=
  {| userObj := t; bufRaw := buf0; accum := 0; dispatched := [] |}.

(** What the thread holds between two iterations, [stream] being the
    bytes read so far and [t0] the user object at the start: the trailing
    partial packet lies at the start of the buffer, and the handler was
    run over the whole packets. *)
Record Between (t0 : T) (stream : list byte) (th : Thread) : Prop := {
  bw_length : Z.of_nat (length (bufRaw th)) = sizeof_buf;
  bw_accum : 0 <= accum th < sizeof_Packet;
  bw_pending :
    firstn (Z.to_nat (accum th)) (bufRaw th) = trailingBytes stream;
  bw_dispatched : dispatched th = wholePackets stream;
  bw_user :
    handleAll packetHandlerFunc t0 (wholePackets stream)
      = Returned (userObj th)
}.

End ReadControlSocketThread.

Arguments Goes {T} th.
Arguments Ends {T} s.
Arguments AssertFailed {T}.
Arguments OutOfBounds {T}.

(** ** A stream of the control socket *)

(** An [IncreaseWindow] packet granting 16 bytes, a [SetSize] packet for 80
    columns and 24 rows, and the first byte of a third packet, delivered by
    two reads of 5 and 12 bytes. *)
Definition twoReads : list ReadResult :=
  [ Got [x01; x00; x00; x00; x10];
    Got [x00; x00; x00; x00; x00; x00; x00; x50; x00; x18; x00; x02] ].

(** A handler that counts its calls. *)
Definition countingHandler (t : Z) (p : Packet) : Handled Z :=
  Returned (t + 1).

(** ** The bytes of a packet *)

(** The byte of value [x mod 256]. *)
Definition byteOf (x : Z) : byte :=
  match Byte.of_N (Z.to_N (x mod 256)) with
  | Some b => b
  | None => x00
  end.

(** The [n] low bytes of [x], least significant first. *)
Fixpoint bytesLE (n : nat) (x : Z) : list byte :=
  match n with
  | O => []
  | S n' => byteOf x :: bytesLE n' (x / 256)
  end.

(** The object representation of a [Packet]: the [sizeof(p)] bytes that
    [reinterpret_cast<const char*>(&p)] shows, the tag first. *)
Definition packetBytes (p : Packet) : list byte :=
  bytesLE 4 (uint32_t (type p)) ++ bytesLE 4 (uint32_t (u p)).

(** The fields of a packet hold values of their types: [type] an [int], [u]
    the word of four bytes. *)
Definition packetInRange (p : Packet) : bool :=
  (- 2 ^ 31 <=? type p) && (type p <=? INT32_MAX)
  && (0 <=? u p) && (u p <? 2 ^ 32).

(** A [SetSize] packet for 80 columns and 24 rows and an [IncreaseWindow]
    packet granting 16 bytes, and their sixteen bytes delivered by three
    reads of 3, 10 and 3 bytes. *)
Definition resizeAndGrant : list Packet :=
  [ {| type := SetSize; u := 80 + 24 * 2 ^ 16 |};
    {| type := IncreaseWindow; u := 16 |} ].
Definition inThreeReads : list ReadResult :=
  [ Got [x00; x00; x00];
    Got [x00; x50; x00; x18; x00; x01; x00; x00; x00; x10];
    Got [x00; x00; x00] ].

End SocketIo.

(* ================================================================= *)
(** * backend/wslbridge-backend.cc *)

Module Backend.
Import SocketIo.

(** ** Threads and shared state *)

(** The four threads of a session: [main] running [mainLoop], and the
    threads [s2p], [p2s] and [rcs] it creates. *)
Inductive ThreadId := Supervisor | SocketToPty | PtyToSocket | ControlReader.

(** How the process stands: it runs, it called [exit(code)], it called
    [abort()], or a signal that it does not handle ended it. *)
Inductive Status := Running | Exited (code : Z) | Aborted | Killed (sig : Z).

Definition SIGPIPE : Z := 13.

(** [struct IoLoop].  A [std::mutex] is held by at most one thread.  The
    descriptors [controlSocketFd] and [childFd] never change after
    [mainLoop] set them; the model names the three descriptors in its
    events instead. *)
Record IoLoop := {
  windowMutex : option ThreadId;
  window : Z;
  windowParams : WindowParams
}.

(** What the process did to the outside world and what it learnt from it,
    from the start of [mainLoop] on (the key that [connectSocket] wrote to
    both sockets before is not counted), with one counter of the protocol:
    [credited] sums the [windowAmount] of the [IncreaseWindow] packets that
    [handlePacket] accepted. *)
Record World := {
  stderr : list string;         (* texts printed to standard error *)
  controlOut : list Packet;     (* packets written whole to the control fd *)
  dataOut : Z;                  (* bytes written to the data socket *)
  dataShutdown : bool;          (* shutdown(socketFd, SHUT_RDWR) was called *)
  winsizes : list TermSize;     (* TIOCSWINSZ requests on the pty *)
  reaped : option Z;            (* the status waitpid stored for the child *)
  credited : Z
}.

(** Program points of [mainLoop] after the three threads were created. *)
Inductive MainPc :=
| MWaitpid                      (* in waitpid *)
| MWritePacket (p : Packet)     (* in writePacket(ioloop, p) *)
| MJoinS2P                      (* in s2p.join() *)
| MJoinP2S                      (* in p2s.join() *)
| MJoinRcs                      (* in rcs.join() *)
| MReturn.                      (* mainLoop returned; main is at return 0 *)

(** Program points of [socketToPtyThread]. *)
Inductive S2PPc :=
| S2PRead                       (* in readRestarting(socketFd, ...) *)
| S2PWrite (amt1 : Z)           (* in writeAllRestarting(childFd, ...) *)
| S2PReturned.

(** Program points of [ptyToSocketThread]. *)
Inductive P2SPc :=
| P2SLoop                       (* top of while (true) *)
| P2SHasWindow                  (* hasWindow(false) was false: at hasWindow() *)
| P2SLock                       (* constructing the unique_lock *)
| P2SWaitPred                   (* in wait: evaluating the predicate, locked *)
| P2SWaiting                    (* in wait: blocked, mutex released *)
| P2SUnlock                     (* wait returned: destroying the unique_lock *)
| P2SRead                       (* in readRestarting(childFd, ...) *)
| P2SWrite (amt1 : Z)           (* in writeAllRestarting(socketFd, ...) *)
| P2SReturned.

(** Program points of [readControlSocketThread<IoLoop, handlePacket,
    connectionBrokenAbort>]; [i] and [n] are the index and the bound
    [fullPacketCount] of the [for] loop, [iw] the local of [handlePacket]. *)
Inductive RcsPc :=
| RcsRead                       (* in readRestarting(controlSocketFd, ...) *)
| RcsFor (i n : Z)              (* at the test i < fullPacketCount *)
| RcsLock (i n iw : Z)          (* handlePacket: constructing the lock_guard *)
| RcsAdd (i n iw : Z)           (* handlePacket: at ioloop->window += iw *)
| RcsUnlock (i n : Z)           (* handlePacket: end of the inner block *)
| RcsNotify (i n : Z)           (* handlePacket: at notify_one() *)
| RcsReturned.

Record State := {
  status : Status;
  ioloop : IoLoop;
  world : World;
  mainPc : MainPc;
  s2pPc : S2PPc;
  p2sPc : P2SPc;
  locWindow : Z;                (* local of ptyToSocketThread *)
  rcsPc : RcsPc;
  rcsBuf : list byte;           (* locals of readControlSocketThread *)
  rcsAccum : Z
}.

(** ** Field updates *)

Definition set_status (v : Status) (s : State) : State :=
  {| status := v; ioloop := ioloop s; world := world s; mainPc := mainPc s;
     s2pPc := s2pPc s; p2sPc := p2sPc s; locWindow := locWindow s;
     rcsPc := rcsPc s; rcsBuf := rcsBuf s; rcsAccum := rcsAccum s |}.
Definition set_ioloop (v : IoLoop) (s : State) : State :=
  {| status := status s; ioloop := v; world := world s; mainPc := mainPc s;
     s2pPc := s2pPc s; p2sPc := p2sPc s; locWindow := locWindow s;
     rcsPc := rcsPc s; rcsBuf := rcsBuf s; rcsAccum := rcsAccum s |}.
Definition set_world (v : World) (s : State) : State :=
  {| status := status s; ioloop := ioloop s; world := v; mainPc := mainPc s;
     s2pPc := s2pPc s; p2sPc := p2sPc s; locWindow := locWindow s;
     rcsPc := rcsPc s; rcsBuf := rcsBuf s; rcsAccum := rcsAccum s |}.
Definition set_mainPc (v : MainPc) (s : State) : State :=
  {| status := status s; ioloop := ioloop s; world := world s; mainPc := v;
     s2pPc := s2pPc s; p2sPc := p2sPc s; locWindow := locWindow s;
     rcsPc := rcsPc s; rcsBuf := rcsBuf s; rcsAccum := rcsAccum s |}.
Definition set_s2pPc (v : S2PPc) (s : State) : State :=
  {| status := status s; ioloop := ioloop s; world := world s;
     mainPc := mainPc s; s2pPc := v; p2sPc := p2sPc s;
     locWindow := locWindow s; rcsPc := rcsPc s; rcsBuf := rcsBuf s;
     rcsAccum := rcsAccum s |}.
Definition set_p2sPc (v : P2SPc) (s : State) : State :=
  {| status := status s; ioloop := ioloop s; world := world s;
     mainPc := mainPc s; s2pPc := s2pPc s; p2sPc := v;
     locWindow := locWindow s; rcsPc := rcsPc s; rcsBuf := rcsBuf s;
     rcsAccum := rcsAccum s |}.
Definition set_locWindow (v : Z) (s : State) : State :=
  {| status := status s; ioloop := ioloop s; world := world s;
     mainPc := mainPc s; s2pPc := s2pPc s; p2sPc := p2sPc s;
     locWindow := v; rcsPc := rcsPc s; rcsBuf := rcsBuf s;
     rcsAccum := rcsAccum s |}.
Definition set_rcsPc (v : RcsPc) (s : State) : State :=
  {| status := status s; ioloop := ioloop s; world := world s;
     mainPc := mainPc s; s2pPc := s2pPc s; p2sPc := p2sPc s;
     locWindow := locWindow s; rcsPc := v; rcsBuf := rcsBuf s;
     rcsAccum := rcsAccum s |}.
Definition set_rcsBuf (v : list byte) (s : State) : State :=
  {| status := status s; ioloop := ioloop s; world := world s;
     mainPc := mainPc s; s2pPc := s2pPc s; p2sPc := p2sPc s;
     locWindow := locWindow s; rcsPc := rcsPc s; rcsBuf := v;
     rcsAccum := rcsAccum s |}.
Definition set_rcsAccum (v : Z) (s : State) : State :=
  {| status := status s; ioloop := ioloop s; world := world s;
     mainPc := mainPc s; s2pPc := s2pPc s; p2sPc := p2sPc s;
     locWindow := locWindow s; rcsPc := rcsPc s; rcsBuf := rcsBuf s;
     rcsAccum := v |}.

Definition set_windowMutex (v : option ThreadId) (s : State) : State :=
  set_ioloop {| windowMutex := v; window := window (ioloop s);
                windowParams := windowParams (ioloop s) |} s.
Definition set_window (v : Z) (s : State) : State :=
  set_ioloop {| windowMutex := windowMutex (ioloop s); window := v;
                windowParams := windowParams (ioloop s) |} s.

Definition eprint (text : string) (s : State) : State :=
  set_world {| stderr := stderr (world s) ++ [text];
               controlOut := controlOut (world s);
               dataOut := dataOut (world s);
               dataShutdown := dataShutdown (world s);
               winsizes := winsizes (world s);
               reaped := reaped (world s);
               credited := credited (world s) |} s.
Definition wrote_control (p : Packet) (s : State) : State :=
  set_world {| stderr := stderr (world s);
               controlOut := controlOut (world s) ++ [p];
               dataOut := dataOut (world s);
               dataShutdown := dataShutdown (world s);
               winsizes := winsizes (world s);
               reaped := reaped (world s);
               credited := credited (world s) |} s.
Definition wrote_data (n : Z) (s : State) : State :=
  set_world {| stderr := stderr (world s);
               controlOut := controlOut (world s);
               dataOut := dataOut (world s) + n;
               dataShutdown := dataShutdown (world s);
               winsizes := winsizes (world s);
               reaped := reaped (world s);
               credited := credited (world s) |} s.
Definition shut_data (s : State) : State :=
  set_world {| stderr := stderr (world s);
               controlOut := controlOut (world s);
               dataOut := dataOut (world s);
               dataShutdown := true;
               winsizes := winsizes (world s);
               reaped := reaped (world s);
               credited := credited (world s) |} s.
Definition set_winsize (ws : TermSize) (s : State) : State :=
  set_world {| stderr := stderr (world s);
               controlOut := controlOut (world s);
               dataOut := dataOut (world s);
               dataShutdown := dataShutdown (world s);
               winsizes := winsizes (world s) ++ [ws];
               reaped := reaped (world s);
               credited := credited (world s) |} s.
Definition credit (iw : Z) (s : State) : State :=
  set_world {| stderr := stderr (world s);
               controlOut := controlOut (world s);
               dataOut := dataOut (world s);
               dataShutdown := dataShutdown (world s);
               winsizes := winsizes (world s);
               reaped := reaped (world s);
               credited := credited (world s) + iw |} s.

Definition set_reaped (wstatus : Z) (s : State) : State :=
  set_world {| stderr := stderr (world s);
               controlOut := controlOut (world s);
               dataOut := dataOut (world s);
               dataShutdown := dataShutdown (world s);
               winsizes := winsizes (world s);
               reaped := Some wstatus;
               credited := credited (world s) |} s.

(** [exit(code)], [abort()], and the end of the process by the signal
    [sig]. *)
Definition exit (code : Z) (s : State) : State := set_status (Exited code) s.
Definition abort (s : State) : State := set_status Aborted s.
Definition killedBy (sig : Z) (s : State) : State :=
  set_status (Killed sig) s.

(** ** Texts *)

Definition nl : string := String (ascii_of_nat 10) EmptyString.

(** [printf]'s [%d] of an [int]. *)
Definition decimal (z : Z) : string := NilZero.string_of_int (Z.to_int z).

Definition connectionBrokenText : string :=
  ("error: connection broken" ++ nl)%string.
Definition unexpectedPacketText (t : Z) : string :=
  ("internal error: unexpected packet " ++ decimal t ++ nl)%string.
(** [perror("waitpid failed")], [errmsg] being the text of [errno]. *)
Definition waitpidFailedText (errmsg : string) : string :=
  ("waitpid failed: " ++ errmsg ++ nl)%string.

(** ** connectionBrokenAbort *)

Definition connectionBrokenAbort (s : State) : State :=
  exit 1 (eprint connectionBrokenText s).

(** ** assert *)

(** Modelled from the spec: the macro [assert] is the C library's.  When
    its expression is false it writes one line to standard error and calls
    [abort()].  The line of the GNU C library is
    [program: file:line: function: Assertion `expr' failed.]; the model
    keeps the part of it that does not depend on how the program was built
    and started. *)
Definition assertionFailedText (expr : string) : string :=
  ("Assertion `" ++ expr ++ "' failed." ++ nl)%string.

Definition assertFailed (expr : string) (s : State) : State :=
  abort (eprint (assertionFailedText expr) s).

(** ** The wait status *)

(** Modelled from the spec: the macros of [<sys/wait.h>] are not part of
    the repository.  These are the definitions of the GNU C library on
    Linux; with them a normal exit yields the low 8 bits of the exit code
    and a death by signal is not a normal exit. *)
Definition WTERMSIG (wstatus : Z) : Z := Z.land wstatus 127.
Definition WIFEXITED (wstatus : Z) : bool := WTERMSIG wstatus =? 0.
Definition WEXITSTATUS (wstatus : Z) : Z :=
  Z.shiftr (Z.land wstatus 65280) 8.

(** How a child ended, and the status word [waitpid] stores for it on Linux:
    the low byte of the exit code in bits 8 to 15, or the signal number in
    bits 0 to 6 with the core-dump flag in bit 7. *)
Inductive Termination :=
| ExitedNormally (code : Z)
| Signalled (sig : Z) (coreDumped : bool).

Definition waitStatus (t : Termination) : Z :=
  match t with
  | ExitedNormally code => Z.shiftl (Z.land code 255) 8
  | Signalled sig coreDumped => Z.lor sig (if coreDumped then 128 else 0)
  end.

(** [mainLoop], from the test of [WIFEXITED] to the packet it builds:
    [Packet p = { Packet::Type::ChildExitStatus };
     p.u.exitStatus = exitStatus;] *)
Definition childExitStatus (wstatus : Z) : Z :=
  if WIFEXITED wstatus then WEXITSTATUS wstatus
  else
    (* XXX: I'm just making something up here. *)
    1.

Definition exitPacket (wstatus : Z) : Packet :=
  {| type := ChildExitStatus; u := uint32_t (childExitStatus wstatus) |}.

(** ** Events *)

(** A step of one thread.  The steps in which a system call or a library
    call returns carry what it returned; [Step t] is a step of thread [t]
    that takes no input.

    Modelled from the spec: [readRestarting] and [writeAllRestarting] are
    declared in [SocketIo.h] and defined in a file that is not at hand.
    [readRestarting] returns what the OS read returned, at most the count
    asked for and zero or less on end of file or error.
    [writeAllRestarting] writes until all of the bytes are written or an
    error occurs and returns whether all were written: on failure it has
    delivered fewer bytes than asked.

    A [write] on a socket whose peer has closed the connection raises
    SIGPIPE.  Nothing in the program handles or ignores the signal, so its
    default action ends the process inside the call: the call does not
    return. *)
Inductive Event :=
| WaitpidReturns (reaped : bool) (wstatus : Z) (errmsg : string)
    (* main: waitpid returned child.pid, or something else *)
| ControlWriteReturns (ok : bool)
    (* main: writeAllRestarting(controlSocketFd, ...) returned *)
| SocketReadReturns (amt1 : Z)
    (* s2p: readRestarting(socketFd, ...) returned *)
| PtyWriteReturns (ok : bool)
    (* s2p: writeAllRestarting(childFd, ...) returned *)
| PtyReadReturns (amt1 : Z)
    (* p2s: readRestarting(childFd, ...) returned *)
| SocketWriteReturns (written : Z)
    (* p2s: writeAllRestarting(socketFd, ..., amt1) returned after
       delivering [written] bytes; it returns true iff written = amt1 *)
| ControlReadReturns (r : ReadResult)
    (* rcs: readRestarting(controlSocketFd, ...) returned *)
| Step (t : ThreadId)
| ControlWriteRaises
    (* main: a write of writeAllRestarting(controlSocketFd, ...) raised
       SIGPIPE *)
| SocketWriteRaises (written : Z).
    (* p2s: a write of writeAllRestarting(socketFd, ..., amt1) raised
       SIGPIPE after [written] bytes were delivered *)

(** ** mainLoop *)

Definition mainLoop (s : State) (e : Event) : option State :=
  match mainPc s, e with
  | MWaitpid, WaitpidReturns reaped wstatus errmsg =>
      (* if (waitpid(child.pid, &exitStatus, 0) != child.pid) {
           perror("waitpid failed"); exit(1); } *)
      if reaped then
        Some (set_mainPc (MWritePacket (exitPacket wstatus))
                (set_reaped wstatus s))
      else Some (exit 1 (eprint (waitpidFailedText errmsg) s))
  | MWritePacket p, ControlWriteReturns ok =>
      (* writePacket *)
      if ok then Some (set_mainPc MJoinS2P (wrote_control p s))
      else Some (connectionBrokenAbort s)
  | MWritePacket p, ControlWriteRaises =>
      Some (killedBy SIGPIPE s)
  | MJoinS2P, Step Supervisor =>
      (* join returns once the thread function has returned *)
      match s2pPc s with
      | S2PReturned => Some (set_mainPc MJoinP2S s)
      | _ => None
      end
  | MJoinP2S, Step Supervisor =>
      match p2sPc s with
      | P2SReturned => Some (set_mainPc MJoinRcs s)
      | _ => None
      end
  | MJoinRcs, Step Supervisor =>
      match rcsPc s with
      | RcsReturned => Some (set_mainPc MReturn s)
      | _ => None
      end
  | MReturn, Step Supervisor =>
      (* main: return 0 *)
      Some (exit 0 s)
  | _, _ => None
  end.

(** ** socketToPtyThread *)

Definition socketToPtyThread (s : State) (e : Event) : option State :=
  match s2pPc s, e with
  | S2PRead, SocketReadReturns amt1 =>
      if amt1 <=? 8192 then
        if amt1 <=? 0 then Some (set_s2pPc S2PReturned s)
        else Some (set_s2pPc (S2PWrite amt1) s)
      else None
  | S2PWrite _, PtyWriteReturns _ =>
      (* the result is ignored *)
      Some (set_s2pPc S2PRead s)
  | _, _ => None
  end.

(** ** ptyToSocketThread *)

(** The lambda [hasWindow]; the state it returns is aborted when its
    assertion fails.  The exchange is the only access to shared memory, so
    the whole call is one step. *)
Definition hasWindow (readAtomic : bool) (s : State) : State * bool :=
  let windowThreshold := threshold (windowParams (ioloop s)) in
  let windowSize := size (windowParams (ioloop s)) in
  if readAtomic then
    let iw := window (ioloop s) in
    let s1 := set_window 0 s in             (* window.exchange(0) *)
    if iw <=? int32_t (windowSize - locWindow s1) then
      let s2 := set_locWindow (int32_t (locWindow s1 + iw)) s1 in
      (s2, windowThreshold <=? locWindow s2)
    else (assertFailed "iw <= windowSize - locWindow" s1, false)
  else (s, windowThreshold <=? locWindow s).

(** [std::min<size_t>(buf.size(), locWindow)] with the 32 KiB buffer. *)
Definition ptyReadCount (s : State) : Z :=
  Z.min (size_t (32 * 1024)) (size_t (locWindow s)).

Definition ptyToSocketThread (s : State) (e : Event) : option State :=
  let windowSize := size (windowParams (ioloop s)) in
  match p2sPc s, e with
  | P2SLoop, Step PtyToSocket =>
      if (0 <=? locWindow s) && (locWindow s <=? windowSize) then
        let (s1, has) := hasWindow false s in
        Some (set_p2sPc (if has then P2SRead else P2SHasWindow) s1)
      else Some (assertFailed "locWindow >= 0 && locWindow <= windowSize" s)
  | P2SHasWindow, Step PtyToSocket =>
      let (s1, has) := hasWindow true s in
      match status s1 with
      | Running => Some (set_p2sPc (if has then P2SRead else P2SLock) s1)
      | _ => Some s1
      end
  | P2SLock, Step PtyToSocket =>
      match windowMutex (ioloop s) with
      | None =>
          Some (set_p2sPc P2SWaitPred (set_windowMutex (Some PtyToSocket) s))
      | Some _ => None
      end
  | P2SWaitPred, Step PtyToSocket =>
      (* wait(lock, hasWindow): while (!hasWindow()) wait(lock); *)
      let (s1, has) := hasWindow true s in
      match status s1 with
      | Running =>
          if has then Some (set_p2sPc P2SUnlock s1)
          else Some (set_p2sPc P2SWaiting (set_windowMutex None s1))
      | _ => Some s1
      end
  | P2SWaiting, Step PtyToSocket =>
      (* woken by notify_one or spuriously: the wait takes the mutex again *)
      match windowMutex (ioloop s) with
      | None =>
          Some (set_p2sPc P2SWaitPred (set_windowMutex (Some PtyToSocket) s))
      | Some _ => None
      end
  | P2SUnlock, Step PtyToSocket =>
      Some (set_p2sPc P2SRead (set_windowMutex None s))
  | P2SRead, PtyReadReturns amt1 =>
      if amt1 <=? ptyReadCount s then
        if amt1 <=? 0 then Some (set_p2sPc P2SReturned (shut_data s))
        else Some (set_p2sPc (P2SWrite amt1) s)
      else None
  | P2SWrite amt1, SocketWriteReturns written =>
      if (0 <=? written) && (written <=? amt1) then
        let s1 := wrote_data written s in
        if written =? amt1 then
          Some (set_p2sPc P2SLoop
                  (set_locWindow (int32_t (locWindow s1 - amt1)) s1))
        else Some (connectionBrokenAbort s1)
      else None
  | P2SWrite amt1, SocketWriteRaises written =>
      if (0 <=? written) && (written <? amt1) then
        Some (killedBy SIGPIPE (wrote_data written s))
      else None
  | _, _ => None
  end.

(** ** handlePacket *)

(** [handlePacket(ioloop, p)] called for [buf[i]], up to its first
    interaction with another thread: the whole call for [SetSize] and for
    the default case, the assertion for [IncreaseWindow]. *)
Definition handlePacket (i n : Z) (p : Packet) (s : State) : State :=
  if type p =? SetSize then
    (* ioctl(ioloop->childFd, TIOCSWINSZ, &ws); its result is ignored *)
    set_rcsPc (RcsFor (i + 1) n) (set_winsize (termSize p) s)
  else if type p =? IncreaseWindow then
    let max := size (windowParams (ioloop s)) in
    let cw := window (ioloop s) in
    let iw := windowAmount p in
    if (0 <=? cw) && (cw <=? max) && (0 <=? iw) && (iw <=? int32_t (max - cw))
    then set_rcsPc (RcsLock i n iw) (credit iw s)
    else
      assertFailed "cw >= 0 && cw <= max && iw >= 0 && iw <= max - cw" s
  else
    exit 1 (eprint (unexpectedPacketText (type p)) s).

(** ** readControlSocketThread, instantiated *)

(** The template with [T = IoLoop], [packetHandlerFunc = handlePacket] and
    [readFailure = connectionBrokenAbort], cut into steps at the points
    where the other threads can interleave: the read, each call of the
    handler, and inside [handlePacket] the lock, the addition, the unlock
    and the notification. *)

Definition readControlSocketThread (s : State) (e : Event) : option State :=
  match rcsPc s, e with
  | RcsRead, ControlReadReturns r =>
      if readPossible (size_t (sizeof_buf - rcsAccum s)) r then
        let amt := amtOf r in
        if amt <=? 0 then Some (connectionBrokenAbort s)
        else
          let s1 :=
            set_rcsAccum (size_t (rcsAccum s + amt))
              (set_rcsBuf (store (rcsBuf s) (rcsAccum s) (dataOf r)) s) in
          if rcsAccum s1 <=? sizeof_buf then
            Some (set_rcsPc (RcsFor 0 (rcsAccum s1 / sizeof_Packet)) s1)
          else Some (assertFailed "accum <= sizeof(buf)" s1)
      else None
  | RcsFor i n, Step ControlReader =>
      if i <? n then Some (handlePacket i n (packetAt (rcsBuf s) i) s)
      else
        let fullPacketBytes := size_t (n * sizeof_Packet) in
        let accum' := size_t (rcsAccum s - fullPacketBytes) in
        Some (set_rcsPc RcsRead
                (set_rcsAccum accum'
                   (set_rcsBuf
                      (store (rcsBuf s) 0
                         (sub (rcsBuf s) fullPacketBytes accum'))
                      s)))
  | RcsLock i n iw, Step ControlReader =>
      match windowMutex (ioloop s) with
      | None =>
          Some (set_rcsPc (RcsAdd i n iw)
                  (set_windowMutex (Some ControlReader) s))
      | Some _ => None
      end
  | RcsAdd i n iw, Step ControlReader =>
      Some (set_rcsPc (RcsUnlock i n)
              (set_window (int32_t (window (ioloop s) + iw)) s))
  | RcsUnlock i n, Step ControlReader =>
      Some (set_rcsPc (RcsNotify i n) (set_windowMutex None s))
  | RcsNotify i n, Step ControlReader =>
      (* windowIncrease.notify_one() *)
      Some (set_rcsPc (RcsFor (i + 1) n) s)
  | _, _ => None
  end.

(** ** The process *)

Definition owner (e : Event) : ThreadId :=
  match e with
  | WaitpidReturns _ _ _ | ControlWriteReturns _ | ControlWriteRaises =>
      Supervisor
  | SocketReadReturns _ | PtyWriteReturns _ => SocketToPty
  | PtyReadReturns _ | SocketWriteReturns _ | SocketWriteRaises _ =>
      PtyToSocket
  | ControlReadReturns _ => ControlReader
  | Step t => t
  end.

(** One step of the process: the thread that owns the event moves.  A
    process that exited or aborted takes no step. *)
Definition step (s : State) (e : Event) : option State :=
  match status s with
  | Running =>
      match owner e with
      | Supervisor => mainLoop s e
      | SocketToPty => socketToPtyThread s e
      | PtyToSocket => ptyToSocketThread s e
      | ControlReader => readControlSocketThread s e
      end
  | _ => None
  end.

Fixpoint run (s : State) (es : list Event) : option State :=
  match es with
  | [] => Some s
  | e :: es' =>
      match step s e with
      | Some s' => run s' es'
      | None => None
      end
  end.

(** ** main *)

(** [mainLoop] up to the creation of the three threads: the [IoLoop] is
    filled in and the threads stand at their first statement, [p2s] with
    [locWindow = windowSize].  The buffer of the control reader is not
    initialised by the code; the model starts it with zero bytes. *)
Definition mainLoop_start (windowParams : WindowParams) : State :=
  {| status := Running;
     ioloop := {| windowMutex := None; window := 0;
                  windowParams := windowParams |};
     world := {| stderr := []; controlOut := []; dataOut := 0;
                 dataShutdown := false; winsizes := [];
                 reaped := None; credited := 0 |};
     mainPc := MWaitpid;
     s2pPc := S2PRead;
     p2sPc := P2SLoop;
     locWindow := size windowParams;
     rcsPc := RcsRead;
     rcsBuf := repeat x00 (Z.to_nat sizeof_buf);
     rcsAccum := 0 |}.

(** [main] from the window parameters on: [sizeArg] and [thresholdArg] are
    what [atoi] returned for [argv[6]] and [argv[7]].  The result is the
    process when [mainLoop] has created its three threads, the sockets
    being connected and the child spawned; [None] when an assertion of
    [main] on the window parameters fails. *)
Definition main (sizeArg thresholdArg : Z) : option State :=
  let windowParams :=
    {| size := int32_t sizeArg; threshold := int32_t thresholdArg |} in
  if (1 <=? size windowParams) && (1 <=? threshold windowParams)
     && (threshold windowParams <=? size windowParams)
  then Some (mainLoop_start windowParams)
  else None.

(** A session: [main] followed by the steps [es]. *)
Definition session (sizeArg thresholdArg : Z) (es : list Event)
  : option State :=
  match main sizeArg thresholdArg with
  | Some s => run s es
  | None => None
  end.

(** ** Invariants of a session *)

(** The program points of [mainLoop] after [writePacket] returned. *)
Definition writePacketReturned (pc : MainPc) : bool :=
  match pc with
  | MWaitpid | MWritePacket _ => false
  | MJoinS2P | MJoinP2S | MJoinRcs | MReturn => true
  end.

(** The credit that [handlePacket] accepted and has not yet added to
    [ioloop->window]. *)
Definition pendingCredit (pc : RcsPc) : Z :=
  match pc with
  | RcsLock _ _ iw | RcsAdd _ _ iw => iw
  | _ => 0
  end.

(** The credit window: the parameters passed the assertions of [main]; both
    counters stay in range; while the process runs, every byte of the window
    is either sent, or credit of the worker, or credit waiting in the shared
    counter or in [handlePacket]. *)
Record Credit (s : State) : Prop := {
  cr_params :
    1 <= threshold (windowParams (ioloop s))
      <= size (windowParams (ioloop s))
    /\ size (windowParams (ioloop s)) <= INT32_MAX;
  cr_window :
    0 <= window (ioloop s)
    /\ 0 <= pendingCredit (rcsPc s)
    /\ window (ioloop s) + pendingCredit (rcsPc s)
         <= size (windowParams (ioloop s));
  cr_loc : 0 <= locWindow s <= size (windowParams (ioloop s));
  cr_sent :
    dataOut (world s) <= size (windowParams (ioloop s)) + credited (world s);
  cr_balance :
    status s = Running ->
    dataOut (world s) + locWindow s + window (ioloop s)
      + pendingCredit (rcsPc s)
    = size (windowParams (ioloop s)) + credited (world s);
  cr_read :
    p2sPc s = P2SRead \/ p2sPc s = P2SUnlock ->
    threshold (windowParams (ioloop s)) <= locWindow s;
  cr_write :
    forall amt1, p2sPc s = P2SWrite amt1 -> 0 < amt1 <= locWindow s
}.

(** The program points at which a thread holds [windowMutex]. *)
Definition rcsLocked (pc : RcsPc) : bool :=
  match pc with RcsAdd _ _ _ | RcsUnlock _ _ => true | _ => false end.
Definition p2sLocked (pc : P2SPc) : bool :=
  match pc with P2SWaitPred | P2SUnlock => true | _ => false end.

Definition lockHolder (s : State) : option ThreadId :=
  if rcsLocked (rcsPc s) then Some ControlReader
  else if p2sLocked (p2sPc s) then Some PtyToSocket
  else None.

Record Locks (s : State) : Prop := {
  lk_owner : windowMutex (ioloop s) = lockHolder s;
  lk_excl : rcsLocked (rcsPc s) && p2sLocked (p2sPc s) = false
}.

(** The buffer of the control reader: it keeps its size; a read starts
    with less than one packet in it; in the [for] loop [fullPacketCount] is
    what [accum] gives, and [accum] fits the buffer. *)
Record Buffered (s : State) : Prop := {
  bf_length : Z.of_nat (length (rcsBuf s)) = sizeof_buf;
  bf_accum :
    match rcsPc s with
    | RcsRead => 0 <= rcsAccum s < sizeof_Packet
    | RcsFor i n =>
        0 <= i <= n /\ n = rcsAccum s / sizeof_Packet
        /\ 0 <= rcsAccum s <= sizeof_buf
    | RcsLock i n _ | RcsAdd i n _ | RcsUnlock i n | RcsNotify i n =>
        0 <= i < n /\ n = rcsAccum s / sizeof_Packet
        /\ 0 <= rcsAccum s <= sizeof_buf
    | RcsReturned => True
    end
}.

(** The texts that precede [exit(1)]. *)
Inductive Fatal : string -> Prop :=
| FatalConnectionBroken : Fatal connectionBrokenText
| FatalUnexpectedPacket (t : Z) : Fatal (unexpectedPacketText t)
| FatalWaitpid (errmsg : string) : Fatal (waitpidFailedText errmsg).

(** The supervisor: the control reader never returns, so [mainLoop] never
    does; the control socket carries nothing until [writePacket] returns and
    the exit packet from then on; the process exits with code 1 after one
    diagnostic, aborts after the message of one assertion, and prints
    nothing otherwise; the only signal that ends it is SIGPIPE. *)
Record Supervised (s : State) : Prop := {
  sv_rcs : rcsPc s <> RcsReturned;
  sv_main : mainPc s <> MReturn;
  sv_out :
    match mainPc s with
    | MWaitpid => reaped (world s) = None /\ controlOut (world s) = []
    | MWritePacket p =>
        exists w, reaped (world s) = Some w /\ p = exitPacket w
                  /\ controlOut (world s) = []
    | _ =>
        exists w, reaped (world s) = Some w
                  /\ controlOut (world s) = [exitPacket w]
    end;
  sv_exit :
    match status s with
    | Running => stderr (world s) = []
    | Exited code =>
        code = 1 /\ exists text, Fatal text /\ stderr (world s) = [text]
    | Aborted =>
        exists expr, stderr (world s) = [assertionFailedText expr]
    | Killed sig => sig = SIGPIPE /\ stderr (world s) = []
    end
}.

(** ** Some sessions *)

(** The bytes of one [IncreaseWindow] packet that grants 16 bytes, and a
    packet of the unknown type 255. *)
Definition increaseWindow16 : list byte :=
  [x01; x00; x00; x00; x10; x00; x00; x00].
Definition packet255 : Packet := {| type := 255; u := 0 |}.

(** With [size = 16], [threshold = 8]: the worker sends 16 bytes and runs
    out of credit; the frontend grants 16 more; the worker sends 10. *)
Definition throttled : list Event :=
  [ Step PtyToSocket; PtyReadReturns 16; SocketWriteReturns 16;
    Step PtyToSocket; Step PtyToSocket;
    ControlReadReturns (Got increaseWindow16);
    Step ControlReader; Step ControlReader; Step ControlReader;
    Step ControlReader; Step ControlReader;
    Step PtyToSocket; Step PtyToSocket; Step PtyToSocket;
    PtyReadReturns 10; SocketWriteReturns 10 ].

(** The same start, but the worker blocks on the condition variable before
    the credit arrives, and is then about to read the pty again. *)
Definition blockedThenRead : list Event :=
  [ Step PtyToSocket; PtyReadReturns 16; SocketWriteReturns 16;
    Step PtyToSocket; Step PtyToSocket; Step PtyToSocket; Step PtyToSocket;
    ControlReadReturns (Got increaseWindow16);
    Step ControlReader; Step ControlReader; Step ControlReader;
    Step ControlReader; Step ControlReader;
    Step PtyToSocket; Step PtyToSocket; Step PtyToSocket ].

(** A frontend that grants 16 bytes at once, of which only 9 get sent: the
    reader accepts the packet and adds the credit; the worker sends 9 bytes
    and stands before its first [hasWindow()]. *)
Definition overgranted : list Event :=
  [ ControlReadReturns (Got increaseWindow16);
    Step ControlReader; Step ControlReader; Step ControlReader;
    Step ControlReader; Step ControlReader; Step ControlReader;
    Step PtyToSocket; PtyReadReturns 9; SocketWriteReturns 9;
    Step PtyToSocket ].

(** The reader receives one [IncreaseWindow] packet and runs [handlePacket]
    up to [notify_one()]. *)
Definition creditArrives : list Event :=
  [ ControlReadReturns (Got increaseWindow16);
    Step ControlReader; Step ControlReader; Step ControlReader;
    Step ControlReader ].

(** The child exits with code 0 and is reaped, the exit packet is written,
    the pty reaches end of file, the data socket is shut down and closed by
    the frontend, and [mainLoop] waits in [rcs.join()]. *)
Definition cleanExit : list Event :=
  [ Step PtyToSocket; PtyReadReturns 5; SocketWriteReturns 5;
    WaitpidReturns true 0 EmptyString; ControlWriteReturns true;
    Step PtyToSocket; PtyReadReturns 0; SocketReadReturns 0;
    Step Supervisor; Step Supervisor ].


(** The child is reaped but the control socket is broken. *)
Definition reapedThenBroken : list Event :=
  [ WaitpidReturns true 0 EmptyString; ControlWriteReturns false ].

(** ** connectSocket *)

(** How far [connectSocket] got: it returned the socket, it is in a [write]
    of the key from index [i] on, or an assertion failed.  [sent] is what
    the socket took of the key. *)
Inductive Connecting :=
| ConnectReturned (sent : list byte)
| ConnectWriting (i : Z) (sent : list byte)
| ConnectAborted.

(** The loop [while (i < key.size())] on the values that [write] returned,
    oldest first.  [write] takes at most the count it is given; [None] when
    the values are not those of a run of the loop. *)
Fixpoint writeKey (key : list byte) (i : Z) (sent : list byte)
    (writes : list Z) {struct writes} : option Connecting :=
  match writes with
  | [] =>
      if i <? Z.of_nat (length key) then Some (ConnectWriting i sent)
      else Some (ConnectReturned sent)
  | actual :: rest =>
      if i <? Z.of_nat (length key) then
        let remaining := size_t (Z.of_nat (length key) - i) in
        if actual <=? remaining then
          if (0 <? actual) && (size_t actual <=? remaining) then
            writeKey key (size_t (i + actual)) (sent ++ sub key i actual) rest
          else match rest with [] => Some ConnectAborted | _ => None end
        else None
      else None
  end.

(** [connectSocket(port, key)] from the result of [connect] on. *)
Definition connectSocket (key : list byte) (connectRet : Z)
    (writes : list Z) : option Connecting :=
  if connectRet =? 0 then writeKey key 0 [] writes
  else match writes with [] => Some ConnectAborted | _ => None end.

(** ** socketToPtyThread, with the bytes *)

(** How far the thread got, and the bytes the pty took so far. *)
Inductive Pumped :=
| PumpReturned (ptyIn : list byte)
| PumpReading (ptyIn : list byte).

Definition ptyInOf (p : Pumped) : list byte :=
  match p with PumpReturned ptyIn | PumpReading ptyIn => ptyIn end.

(** [socketToPtyThread] run on the results of its calls, one pair for each
    iteration: what [readRestarting(socketFd, ...)] returned, and the number
    of bytes that [writeAllRestarting(ioloop->childFd, ...)] delivered (the
    number is not looked at in the iteration whose read failed).  [None]
    when the results are not those of a run of the thread.
    Modelled from the spec: [writeAllRestarting] is declared in [SocketIo.h]
    and defined in a file that is not at hand.  It writes until all of the
    bytes are written or an error occurs: it delivers all of them when it
    succeeds and a prefix of them when it fails. *)
Fixpoint socketToPtyThread_run (ptyIn : list byte)
    (ios : list (ReadResult * Z)) : option Pumped :=
  match ios with
  | [] => Some (PumpReading ptyIn)
  | (r, written) :: rest =>
      if readPossible 8192 r then
        let amt1 := amtOf r in
        if amt1 <=? 0 then
          match rest with [] => Some (PumpReturned ptyIn) | _ => None end
        else if (0 <=? written) && (written <=? amt1) then
          socketToPtyThread_run (ptyIn ++ sub (dataOf r) 0 written) rest
        else None
      else None
  end.

(** [out] is [all] with some of its elements left out. *)
Inductive Thinned {A : Type} : list A -> list A -> Prop :=
| ThinnedNil : Thinned [] []
| ThinnedKeep (x : A) (out all : list A) :
    Thinned out all -> Thinned (x :: out) (x :: all)
| ThinnedDrop (x : A) (out all : list A) :
    Thinned out all -> Thinned out (x :: all).

(** ** More invariants of a session *)

(** The worker is on its way to the wait, or in it, only while its local
    credit is below the threshold. *)
Definition p2sShort (pc : P2SPc) : bool :=
  match pc with
  | P2SHasWindow | P2SLock | P2SWaitPred | P2SWaiting => true
  | _ => false
  end.

Record Pumping (s : State) : Prop := {
  pm_short :
    p2sShort (p2sPc s) = true ->
    locWindow s < threshold (windowParams (ioloop s));
  pm_shutdown :
    dataShutdown (world s) = true <-> p2sPc s = P2SReturned
}.

(** ** More sessions *)

(** A key of five bytes, and a stream of the data socket in two reads. *)
Definition someKey : list byte := [x73; x65; x63; x72; x74].
Definition typed : list (ReadResult * Z) :=
  [ (Got [x6c; x73], 2); (Got [x20; x2d; x6c; x0a], 4) ].

(** With [size = 16], [threshold = 8]: the worker sends 16 bytes and blocks
    in the wait; the reader handles a grant of 16 bytes to its end. *)
Definition blockedThenCredited : list Event :=
  [ Step PtyToSocket; PtyReadReturns 16; SocketWriteReturns 16;
    Step PtyToSocket; Step PtyToSocket; Step PtyToSocket; Step PtyToSocket;
    ControlReadReturns (Got increaseWindow16);
    Step ControlReader; Step ControlReader; Step ControlReader;
    Step ControlReader; Step ControlReader; Step ControlReader ].

(** The pty reaches end of file after 5 bytes. *)
Definition ptyClosed : list Event :=
  [ Step PtyToSocket; PtyReadReturns 5; SocketWriteReturns 5;
    Step PtyToSocket; PtyReadReturns 0 ].

(** ** The control stream of a session *)

(** The bytes that the reads of the control socket delivered in a run of
    events, oldest first. *)
Definition eventData (e : Event) : list byte :=
  match e with ControlReadReturns r => dataOf r | _ => [] end.
Definition controlIn (es : list Event) : list byte :=
  concat (map eventData es).

(** What a list of packets asks for: the terminal sizes of its [SetSize]
    packets, in order, and the sum of the amounts of its [IncreaseWindow]
    packets. *)
Definition sizesSet (ps : list Packet) : list TermSize :=
  map termSize (filter (fun p => type p =? SetSize) ps).
Definition creditGranted (ps : list Packet) : Z :=
  fold_right Z.add 0
    (map windowAmount (filter (fun p => type p =? IncreaseWindow) ps)).

(** The types that [handlePacket] has a case for. *)
Definition knownType (p : Packet) : bool :=
  (type p =? SetSize) || (type p =? IncreaseWindow).


(** The number of packets of the batch in the buffer that [handlePacket]
    was called for and has recorded in the world. *)
Definition handledInBatch (pc : RcsPc) : Z :=
  match pc with
  | RcsFor i _ => i
  | RcsLock i _ _ | RcsAdd i _ _ | RcsUnlock i _ | RcsNotify i _ => i + 1
  | RcsRead | RcsReturned => 0
  end.

(** The packets handled so far: those of the bytes [done] that left the
    buffer, and the handled ones of the batch. *)
Definition handledPackets (done : list byte) (s : State) : list Packet :=
  wholePackets done
    ++ map (fun j => packetAt (rcsBuf s) (Z.of_nat j))
         (seq 0 (Z.to_nat (handledInBatch (rcsPc s)))).

(** The control reader in the process, [stream] being the bytes read so
    far: the stream is what left the buffer in whole packets followed by
    what the buffer holds, and the world records the packets handled. *)
Definition Received (stream : list byte) (s : State) : Prop :=
  exists done : list byte,
    stream = done ++ firstn (Z.to_nat (rcsAccum s)) (rcsBuf s)
    /\ trailingBytes done = []
    /\ winsizes (world s) = sizesSet (handledPackets done s)
    /\ credited (world s) = creditGranted (handledPackets done s)
    /\ forallb knownType (handledPackets done s) = true.

(** With [size = 16], [threshold = 8]: the frontend sets the terminal to 80
    columns and 24 rows and grants 16 bytes; the two packets arrive in
    reads of 11 and 5 bytes, and the reader handles both to the end. *)
Definition resizedAndCredited : list Event :=
  [ ControlReadReturns
      (Got [x00; x00; x00; x00; x50; x00; x18; x00; x01; x00; x00]);
    Step ControlReader; Step ControlReader;
    ControlReadReturns (Got [x00; x10; x00; x00; x00]);
    Step ControlReader; Step ControlReader; Step ControlReader;
    Step ControlReader; Step ControlReader; Step ControlReader ].

End Backend.

(* ================================================================= *)
(** * The control-packet reader *)

Import SocketIo.

(** ** Raw memory *)

Lemma sub_nat (l : list byte) (off n : nat) :
  sub l (Z.of_nat off) (Z.of_nat n) = firstn n (skipn off l).
Proof. unfold sub. now rewrite !Nat2Z.id. Qed.

Lemma length_sub (l : list byte) (off n : Z) :
  0 <= off -> 0 <= n -> off + n <= Z.of_nat (length l) ->
  Z.of_nat (length (sub l off n)) = n.
Proof.
  intros Hoff Hn Hle. unfold sub.
  rewrite length_firstn, length_skipn. lia.
Qed.

Lemma sub_app_l (l r : list byte) (off n : Z) :
  0 <= off -> 0 <= n -> off + n <= Z.of_nat (length l) ->
  sub (l ++ r) off n = sub l off n.
Proof.
  intros Hoff Hn Hle. unfold sub.
  rewrite skipn_app, firstn_app, length_skipn.
  replace (Z.to_nat n - (length l - Z.to_nat off))%nat with 0%nat by lia.
  now rewrite firstn_O, app_nil_r.
Qed.

Lemma sub_to_end (l : list byte) (off : Z) :
  0 <= off <= Z.of_nat (length l) ->
  sub l off (Z.of_nat (length l) - off) = skipn (Z.to_nat off) l.
Proof.
  intros Hoff. unfold sub. apply firstn_all2.
  rewrite length_skipn. lia.
Qed.

Lemma length_store (l : list byte) (off : Z) (data : list byte) :
  0 <= off -> off + Z.of_nat (length data) <= Z.of_nat (length l) ->
  length (store l off data) = length l.
Proof.
  intros Hoff Hle. unfold store.
  rewrite !length_app, length_firstn, length_skipn. lia.
Qed.

Lemma store_prefix (l : list byte) (off : Z) (data : list byte) :
  0 <= off <= Z.of_nat (length l) ->
  store l off data =
    (firstn (Z.to_nat off) l ++ data)
      ++ skipn (Z.to_nat off + length data) l.
Proof. intros _. unfold store. now rewrite app_assoc. Qed.

(** The packets of a stream in terms of [nat] offsets. *)
(** ** Streams and their packets *)

(** The packets and the trailing bytes of a stream by [nat] offsets. *)
Lemma wholePackets_nat (s : list byte) :
  wholePackets s =
    map (fun i => decode (firstn 8 (skipn (8 * i) s)))
        (seq 0 (length s / 8)).
Proof.
  unfold wholePackets, sizeof_Packet.
  replace (Z.to_nat (Z.of_nat (length s) / 8)) with (length s / 8)%nat.
  2:{ change 8 with (Z.of_nat 8). now rewrite <- Nat2Z.inj_div, Nat2Z.id. }
  apply map_ext. intros i. f_equal.
  replace (Z.of_nat i * 8) with (Z.of_nat (8 * i)) by lia.
  apply (sub_nat s (8 * i) 8).
Qed.

Lemma trailingBytes_nat (s : list byte) :
  trailingBytes s = skipn (8 * (length s / 8)) s.
Proof.
  unfold trailingBytes, sizeof_Packet. f_equal.
  change 8 with (Z.of_nat 8). rewrite <- Nat2Z.inj_div, <- Nat2Z.inj_mul.
  rewrite Nat2Z.id. lia.
Qed.

Lemma map_seq_from {A : Type} (f : nat -> A) (q k : nat) :
  map f (seq q k) = map (fun i => f (q + i)%nat) (seq 0 k).
Proof.
  revert f q. induction k as [|k IH]; intros f q; [reflexivity|].
  cbn [seq map]. rewrite Nat.add_0_r. f_equal.
  rewrite (IH f (S q)), (IH (fun i => f (q + i)%nat) 1%nat).
  apply map_ext. intros i. f_equal. lia.
Qed.

(** Bytes appended to a stream complete its trailing bytes: the packets of
    the longer stream are those of the shorter one, then those of its
    trailing bytes followed by the new bytes. *)
Lemma wholePackets_app (s d : list byte) :
  wholePackets (s ++ d) = wholePackets s ++ wholePackets (trailingBytes s ++ d).
Proof.
  rewrite !wholePackets_nat, trailingBytes_nat.
  set (q := (length s / 8)%nat).
  set (t := skipn (8 * q) s).
  assert (Hs : length s = (8 * q + length t)%nat).
  { unfold t. rewrite length_skipn. unfold q.
    pose proof (Nat.div_mod_eq (length s) 8). lia. }
  assert (Ht : (length t < 8)%nat).
  { unfold t. rewrite length_skipn. unfold q.
    pose proof (Nat.div_mod_eq (length s) 8).
    pose proof (Nat.mod_upper_bound (length s) 8). lia. }
  assert (Hq : (length (s ++ d) / 8 = q + length (t ++ d) / 8)%nat).
  { rewrite !length_app, Hs.
    replace (8 * q + length t + length d)%nat
      with ((length t + length d) + q * 8)%nat by lia.
    rewrite Nat.div_add by lia. lia. }
  rewrite Hq, seq_app, map_app. f_equal.
  - apply map_ext_in. intros i Hi. apply in_seq in Hi. f_equal.
    rewrite skipn_app, firstn_app, length_skipn.
    replace (8 - (length s - 8 * i))%nat with 0%nat by lia.
    now rewrite firstn_O, app_nil_r.
  - rewrite map_seq_from. apply map_ext. intros i. do 2 f_equal.
    replace (8 * (0 + q + i))%nat with (8 * i + 8 * q)%nat by lia.
    rewrite <- skipn_skipn. f_equal.
    rewrite skipn_app. fold t.
    replace (8 * q - length s)%nat with 0%nat by lia. reflexivity.
Qed.

Lemma trailingBytes_app (s d : list byte) :
  trailingBytes (s ++ d) = trailingBytes (trailingBytes s ++ d).
Proof.
  rewrite !trailingBytes_nat.
  set (q := (length s / 8)%nat).
  set (t := skipn (8 * q) s).
  assert (Hs : length s = (8 * q + length t)%nat).
  { unfold t. rewrite length_skipn. unfold q.
    pose proof (Nat.div_mod_eq (length s) 8). lia. }
  assert (Hq : (length (s ++ d) / 8 = q + length (t ++ d) / 8)%nat).
  { rewrite !length_app, Hs.
    replace (8 * q + length t + length d)%nat
      with ((length t + length d) + q * 8)%nat by lia.
    rewrite Nat.div_add by lia. lia. }
  rewrite Hq.
  replace (8 * (q + length (t ++ d) / 8))%nat
    with (8 * (length (t ++ d) / 8) + 8 * q)%nat by lia.
  rewrite <- skipn_skipn. f_equal.
  rewrite skipn_app. fold t.
  replace (8 * q - length s)%nat with 0%nat by lia. reflexivity.
Qed.

Lemma handleAll_app {T : Type} (h : T -> Packet -> Handled T) (t : T)
    (ps qs : list Packet) :
  handleAll h t (ps ++ qs) =
    match handleAll h t ps with
    | Returned t' => handleAll h t' qs
    | Stopped s => Stopped s
    end.
Proof.
  revert t. induction ps as [|p ps IH]; intros t; cbn; [reflexivity|].
  destruct (h t p); [apply IH | reflexivity].
Qed.

(** ** The loop of the reader *)

Section ReaderLoop.

Context {T : Type}.
Variable h : T -> Packet -> Handled T.
Variable hook : Hook.

(** The [for] loop runs the handler over [buf[i]], ..., [buf[i + k - 1]]. *)
Lemma forPackets_handleAll (k : nat) (i : Z) (th : Thread) :
  forPackets h k i th =
    match handleAll h (userObj th)
            (map (fun j => packetAt (bufRaw th) (i + Z.of_nat j)) (seq 0 k))
    with
    | Returned t' =>
        Goes {| userObj := t'; bufRaw := bufRaw th; accum := accum th;
                dispatched :=
                  dispatched th
                    ++ map (fun j => packetAt (bufRaw th) (i + Z.of_nat j))
                           (seq 0 k) |}
    | Stopped s => Ends s
    end.
Proof.
  revert i th. induction k as [|k IH]; intros i th.
  - cbn. rewrite app_nil_r. now destruct th.
  - cbn [forPackets seq map handleAll]. rewrite Z.add_0_r.
    destruct (h (userObj th) (packetAt (bufRaw th) i)) as [t'|s];
      [|reflexivity].
    rewrite IH. cbn [userObj bufRaw accum dispatched].
    rewrite (map_seq_from _ 1 k).
    assert (E : map (fun j => packetAt (bufRaw th) (i + 1 + Z.of_nat j))
                  (seq 0 k)
                = map (fun j => packetAt (bufRaw th)
                                  (i + Z.of_nat (1 + j)))
                      (seq 0 k)).
    { apply map_ext. intros j. f_equal. lia. }
    rewrite E, <- app_assoc. reflexivity.
Qed.

Lemma between_start (t0 : T) (buf0 : list byte) :
  Z.of_nat (length buf0) = sizeof_buf -> Between h t0 [] (start t0 buf0).
Proof.
  intros H. split; cbn; try reflexivity; auto. unfold sizeof_Packet; lia.
Qed.

(** One iteration after a successful read: the handler is run over the
    packets that the pending bytes and the new bytes make, and what is left
    is moved to the front. *)
Lemma afterRead_got (t0 : T) (stream : list byte) (th : Thread)
    (data : list byte) :
  Between h t0 stream th ->
  0 < Z.of_nat (length data) <= readCount th ->
  match afterRead h hook th (Got data) with
  | Goes th' => Between h t0 (stream ++ data) th'
  | Ends s => handleAll h t0 (wholePackets (stream ++ data)) = Stopped s
  | AssertFailed | OutOfBounds => False
  end.
Proof.
  intros [Hlen Hacc Hpend Hdisp Huser] Hdata.
  unfold readCount, size_t in Hdata.
  unfold sizeof_buf, sizeof_Packet in *.
  rewrite Z.mod_small in Hdata by lia.
  set (a := accum th) in *. set (B := bufRaw th) in *.
  set (n := Z.of_nat (length data)) in *.
  set (X := trailingBytes stream ++ data).
  assert (HlenX : Z.of_nat (length X) = a + n).
  { unfold X. rewrite length_app, <- Hpend, length_firstn. lia. }
  set (B1 := store B a data).
  assert (HB1 : B1 = X ++ skipn (Z.to_nat a + length data) B).
  { unfold B1, X. rewrite <- Hpend. apply store_prefix. lia. }
  assert (HlenB1 : length B1 = length B).
  { apply length_store; lia. }
  unfold afterRead. cbn [amtOf dataOf]. unfold sizeof_buf, sizeof_Packet.
  fold n. destruct (n <=? 0) eqn:En; [lia|].
  cbn [accum bufRaw userObj dispatched]. fold a B B1.
  unfold size_t. rewrite (Z.mod_small (a + n)) by lia.
  destruct (a + n <=? 256 * 8) eqn:Ea; [|lia].
  rewrite forPackets_handleAll. cbn [accum bufRaw userObj dispatched].
  set (q := (a + n) / 8).
  assert (Hq : 0 <= q /\ 8 * q <= a + n < 8 * q + 8).
  { unfold q. pose proof (Z.div_mod (a + n) 8).
    pose proof (Z.mod_pos_bound (a + n) 8). lia. }
  assert (Hps : map (fun j => packetAt B1 (0 + Z.of_nat j))
                    (seq 0 (Z.to_nat q)) = wholePackets X).
  { unfold wholePackets, sizeof_Packet. rewrite HlenX. fold q.
    apply map_ext_in. intros j Hj. apply in_seq in Hj.
    unfold packetAt, sizeof_Packet. f_equal. rewrite HB1.
    rewrite Z.add_0_l. apply sub_app_l; lia. }
  rewrite Hps.
  rewrite wholePackets_app, handleAll_app, Huser.
  fold X.
  destruct (handleAll h (userObj th) (wholePackets X)) as [t'|s] eqn:Eh;
    [|reflexivity].
  cbn [accum bufRaw userObj dispatched].
  rewrite (Z.mod_small (q * 8)) by lia.
  assert (Hr : (a + n - q * 8) mod 2 ^ 64 = a + n - q * 8).
  { apply Z.mod_small. lia. }
  rewrite Hr.
  destruct (q * 8 + (a + n - q * 8) <=? 256 * 8) eqn:Eb; [|lia].
  assert (Hsub : sub B1 (q * 8) (a + n - q * 8) = trailingBytes X).
  { rewrite HB1, sub_app_l by lia.
    rewrite <- HlenX, sub_to_end by lia.
    unfold trailingBytes, sizeof_Packet. rewrite HlenX. fold q.
    reflexivity. }
  assert (HlenT : Z.of_nat (length (trailingBytes X)) = a + n - q * 8).
  { rewrite <- Hsub. apply length_sub; lia. }
  split; cbn [accum bufRaw userObj dispatched];
    unfold sizeof_buf, sizeof_Packet.
  - rewrite length_store by (rewrite ?Hsub; lia). lia.
  - lia.
  - rewrite Hsub. unfold store. cbn [firstn app Z.to_nat].
    rewrite firstn_app. rewrite <- HlenT, Nat2Z.id, Nat.sub_diag.
    rewrite firstn_all, firstn_O, app_nil_r.
    symmetry. apply trailingBytes_app.
  - rewrite Hdisp. symmetry. apply wholePackets_app.
  - rewrite wholePackets_app, handleAll_app, Huser. exact Eh.
Qed.


(** The same for a run of the thread, as long as a read that fails stops
    the process. *)
Lemma run_between (t0 : T) (reads : list ReadResult) :
  forall (stream : list byte) (th : Thread) (flow : Flow),
  Forall (fun r => 0 < amtOf r \/ hook <> HookReturns) reads ->
  Between h t0 stream th ->
  readControlSocketThread h hook th reads = Some flow ->
  match flow with
  | Goes th' => Between h t0 (stream ++ bytesOf reads) th'
  | Ends s =>
      Forall (fun r => 0 < amtOf r) reads ->
      handleAll h t0 (wholePackets (stream ++ bytesOf reads)) = Stopped s
  | AssertFailed | OutOfBounds => False
  end.
Proof.
  induction reads as [|r rest IH]; intros stream th flow Hreads Hbw Hrun.
  - cbn in Hrun. injection Hrun as <-. unfold bytesOf. cbn.
    now rewrite app_nil_r.
  - inversion Hreads as [|? ? Hr Hrest]; subst.
    cbn [readControlSocketThread] in Hrun. unfold iteration in Hrun.
    destruct (readPossible (readCount th) r) eqn:Hposs; [|discriminate].
    unfold readPossible in Hposs. apply Z.leb_le in Hposs.
    destruct (Z.ltb_spec 0 (amtOf r)) as [Hpos|Hneg].
    + destruct r as [data|]; [|cbn in Hpos; lia]. cbn [amtOf] in *.
      pose proof (afterRead_got t0 stream th data Hbw (conj Hpos Hposs))
        as Hstep.
      unfold bytesOf. cbn [map dataOf concat]. rewrite app_assoc.
      destruct (afterRead h hook th (Got data)) as [th'|s| |];
        try contradiction.
      * pose proof (IH _ _ _ Hrest Hstep Hrun) as Hend.
        destruct flow; try assumption.
        intros Hall. apply Hend. now inversion Hall.
      * destruct rest; [|discriminate]. injection Hrun as <-.
        intros _. cbn. now rewrite app_nil_r.
    + assert (Hhook : hook <> HookReturns) by (destruct Hr; [lia|assumption]).
      unfold afterRead in Hrun.
      destruct (amtOf r <=? 0) eqn:E; [|apply Z.leb_gt in E; lia].
      destruct hook as [|s]; [contradiction|].
      destruct rest; [|discriminate]. injection Hrun as <-.
      intros Hall. inversion Hall; subst. lia.
Qed.

(** A chunking whose reads fit the buffer is read to its end when the
    handler always returns. *)
Lemma reads_accepted (t0 : T) (reads : list ReadResult) :
  forall (stream : list byte) (th : Thread),
  (forall t p, exists t', h t p = Returned t') ->
  Forall (fun r => 0 < amtOf r <= sizeof_buf - sizeof_Packet + 1) reads ->
  Between h t0 stream th ->
  exists th', readControlSocketThread h hook th reads = Some (Goes th').
Proof.
  intros stream th Hh. revert stream th.
  assert (Hall : forall ps t, exists t', handleAll h t ps = Returned t').
  { induction ps as [|p ps IHps]; intros t; cbn; [now exists t|].
    destruct (Hh t p) as [t' ->]. apply IHps. }
  induction reads as [|r rest IH]; intros stream th Hreads Hbw.
  - now exists th.
  - inversion Hreads as [|? ? Hr Hrest]; subst.
    destruct r as [data|]; [|cbn in Hr; lia]. cbn [amtOf] in Hr.
    assert (Hfit : Z.of_nat (length data) <= readCount th).
    { destruct Hbw as [_ Hacc _ _ _]. unfold readCount, size_t.
      unfold sizeof_buf, sizeof_Packet in *.
      rewrite Z.mod_small by lia. lia. }
    pose proof (afterRead_got t0 stream th data Hbw
                  (conj (proj1 Hr) Hfit)) as Hstep.
    cbn [readControlSocketThread]. unfold iteration, readPossible.
    cbn [amtOf]. apply Z.leb_le in Hfit. rewrite Hfit.
    destruct (afterRead h hook th (Got data)) as [th'|s| |];
      try contradiction.
    + apply (IH _ _ Hrest Hstep).
    + destruct (Hall (wholePackets (stream ++ data)) t0) as [t' Ht'].
      congruence.
Qed.

(** The thread runs on every sequence of successful reads that the socket
    can give: to the end when the handler returns on every whole packet of
    the stream, and otherwise up to the read in which the handler stops the
    process, [k] reads having gone well before. *)
Lemma reads_run (t0 : T) (reads : list ReadResult) :
  forall (stream : list byte) (th : Thread),
  Forall (fun r => 0 < amtOf r) reads ->
  readsFit stream reads = true ->
  Between h t0 stream th ->
  match handleAll h t0 (wholePackets (stream ++ bytesOf reads)) with
  | Returned t =>
      exists th' : Thread,
        readControlSocketThread h hook th reads = Some (Goes th')
        /\ userObj th' = t
  | Stopped s =>
      exists (k : nat) (th' : Thread),
        (k < length reads)%nat
        /\ readControlSocketThread h hook th (firstn k reads)
           = Some (Goes th')
        /\ readControlSocketThread h hook th (firstn (S k) reads)
           = Some (Ends s)
  end.
Proof.
  induction reads as [|r rest IH]; intros stream th Hreads Hfit Hbw.
  - unfold bytesOf. cbn [map concat]. rewrite app_nil_r.
    rewrite (bw_user _ _ _ _ Hbw). now exists th.
  - inversion Hreads as [|? ? Hr Hrest]; subst.
    destruct r as [data|]; [|cbn in Hr; lia]. cbn [amtOf dataOf] in *.
    cbn [readsFit amtOf dataOf] in Hfit.
    apply andb_true_iff in Hfit as [Hroom Hfit]. apply Z.leb_le in Hroom.
    assert (Hcount : Z.of_nat (length data) <= readCount th).
    { destruct Hbw as [Hlen Hacc Hpend _ _].
      rewrite <- Hpend, length_firstn in Hroom.
      unfold readCount, size_t. unfold sizeof_buf, sizeof_Packet in *.
      rewrite Z.mod_small by lia. lia. }
    pose proof (afterRead_got t0 stream th data Hbw (conj Hr Hcount))
      as Hstep.
    assert (Hiter : iteration h hook th (Got data)
                    = Some (afterRead h hook th (Got data))).
    { unfold iteration, readPossible. cbn [amtOf].
      apply Z.leb_le in Hcount. now rewrite Hcount. }
    unfold bytesOf. cbn [map dataOf concat]. rewrite app_assoc.
    fold (bytesOf rest).
    destruct (afterRead h hook th (Got data)) as [th1|s| |] eqn:Eafter;
      try contradiction.
    + specialize (IH (stream ++ data) th1 Hrest Hfit Hstep).
      destruct (handleAll h t0
                  (wholePackets ((stream ++ data) ++ bytesOf rest)))
        as [t|s].
      * destruct IH as (th' & Hrun & Hu). exists th'. split; [|exact Hu].
        cbn [readControlSocketThread]. now rewrite Hiter.
      * destruct IH as (k & th' & Hk & Hgo & Hend).
        exists (S k), th'. cbn [length firstn readControlSocketThread].
        rewrite Hiter. repeat split; try assumption. lia.
    + rewrite wholePackets_app, handleAll_app.
      rewrite Hstep.
      exists 0%nat, th. cbn [length firstn readControlSocketThread].
      rewrite Hiter. repeat split; try reflexivity. lia.
Qed.

End ReaderLoop.

(** A property of all elements holds of the first ones. *)
Lemma Forall_first {A : Type} (P : A -> Prop) (k : nat) (l : list A) :
  Forall P l -> Forall P (firstn k l).
Proof.
  intros H. revert k. induction H as [|x l Hx Hl IH]; intros [|k];
    cbn [firstn]; constructor; auto.
Qed.

(** C2. Control-packet codec correctness.  Whatever the handler and the
    failure hook, and however the byte stream of the control socket is cut
    into successful reads, each of which returns no more than the reader
    asked for, the thread runs and passes to the handler exactly the whole
    8-byte records of the stream, in arrival order and once each
    ([dispatched] lists the calls), and never part of a record: the trailing
    partial record stays at the start of the buffer, [accum] bytes long, for
    the reads to come.  When the handler stops the process, it does so in
    one of the reads, while being run over the whole records of the stream
    up to that read, the reads before having gone as said.  The reader
    never fails its own assertion nor leaves its buffer on the way. *)
Theorem reader_dispatches_whole_packets :
  forall (T : Type) (h : T -> Packet -> Handled T) (hook : Hook)
         (t0 : T) (buf0 : list byte) (reads : list ReadResult),
  Z.of_nat (length buf0) = sizeof_buf ->
  Forall (fun r => 0 < amtOf r) reads ->
  readsFit [] reads = true ->
  match SocketIo.readControlSocketThread h hook (start t0 buf0) reads with
  | Some (Goes th) =>
      dispatched th = wholePackets (bytesOf reads)
      /\ handleAll h t0 (wholePackets (bytesOf reads)) = Returned (userObj th)
      /\ accum th = Z.of_nat (length (trailingBytes (bytesOf reads)))
      /\ firstn (Z.to_nat (accum th)) (bufRaw th)
           = trailingBytes (bytesOf reads)
  | Some (Ends s) =>
      handleAll h t0 (wholePackets (bytesOf reads)) = Stopped s
  | Some AssertFailed | Some OutOfBounds => False
  | None => True
  end
  /\ match handleAll h t0 (wholePackets (bytesOf reads)) with
     | Returned t =>
         exists th : Thread,
           SocketIo.readControlSocketThread h hook (start t0 buf0) reads
           = Some (Goes th)
           /\ userObj th = t
     | Stopped s =>
         exists (k : nat) (th : Thread),
           (k < length reads)%nat
           /\ SocketIo.readControlSocketThread h hook (start t0 buf0)
                (firstn k reads)
              = Some (Goes th)
           /\ dispatched th = wholePackets (bytesOf (firstn k reads))
           /\ SocketIo.readControlSocketThread h hook (start t0 buf0)
                (firstn (S k) reads)
              = Some (Ends s)
           /\ handleAll h t0 (wholePackets (bytesOf (firstn (S k) reads)))
              = Stopped s
     end.
Proof.
  intros T h hook t0 buf0 reads Hlen Hreads Hfit.
  assert (Hreads' : Forall (fun r => 0 < amtOf r \/ hook <> HookReturns) reads).
  { eapply Forall_impl; [|exact Hreads]. cbn. intros r Hr. now left. }
  pose proof (between_start h t0 buf0 Hlen) as Hstart.
  split.
  - destruct (SocketIo.readControlSocketThread h hook (start t0 buf0) reads)
      as [flow|] eqn:Hrun; [|exact I].
    pose proof (run_between h hook t0 reads [] _ _ Hreads' Hstart Hrun) as H.
    cbn [app] in H. destruct flow as [th|s| |]; try assumption.
    + destruct H as [Hl Ha Hp Hd Hu]. repeat split; try assumption.
      rewrite <- Hp, length_firstn.
      unfold sizeof_buf, sizeof_Packet in *. lia.
    + now apply H.
  - pose proof (reads_run h hook t0 reads [] _ Hreads Hfit Hstart) as Hr.
    cbn [app] in Hr.
    destruct (handleAll h t0 (wholePackets (bytesOf reads))) as [t|s];
      [exact Hr|].
    destruct Hr as (k & th & Hk & Hgo & Hend). exists k, th.
    pose proof (run_between h hook t0 (firstn k reads) [] _ _
                  (Forall_first _ k _ Hreads') Hstart Hgo) as Hbw.
    pose proof (run_between h hook t0 (firstn (S k) reads) [] _ _
                  (Forall_first _ (S k) _ Hreads') Hstart Hend) as Hs.
    cbn [app] in Hbw, Hs. repeat split; try assumption.
    + exact (bw_dispatched _ _ _ _ Hbw).
    + exact (Hs (Forall_first _ (S k) _ Hreads)).
Qed.

(** The stream [twoReads] holds two whole packets and one more byte. *)
Example twoReads_dispatched :
  option_map
    (fun flow =>
       match flow with
       | Goes th => (userObj th, dispatched th, accum th)
       | _ => (0, [], 0)
       end)
    (SocketIo.readControlSocketThread countingHandler (HookStops (ExitCode 1))
       (start 0 (repeat x00 (Z.to_nat sizeof_buf))) twoReads)
  = Some (2, [ {| type := IncreaseWindow; u := 16 |};
               {| type := SetSize; u := 80 + 24 * 2 ^ 16 |} ], 1).
Proof. vm_compute. reflexivity. Qed.

Lemma reader_dispatches_whole_packets_witness :
  Z.of_nat (length (repeat x00 (Z.to_nat sizeof_buf))) = sizeof_buf
  /\ Forall (fun r => 0 < amtOf r) twoReads
  /\ readsFit [] twoReads = true
  /\ match
       SocketIo.readControlSocketThread countingHandler
         (HookStops (ExitCode 1))
         (start 0 (repeat x00 (Z.to_nat sizeof_buf))) twoReads
     with
     | Some (Goes th) =>
         dispatched th = wholePackets (bytesOf twoReads)
         /\ handleAll countingHandler 0 (wholePackets (bytesOf twoReads))
            = Returned (userObj th)
         /\ accum th = Z.of_nat (length (trailingBytes (bytesOf twoReads)))
         /\ firstn (Z.to_nat (accum th)) (bufRaw th)
            = trailingBytes (bytesOf twoReads)
     | Some (Ends s) =>
         handleAll countingHandler 0 (wholePackets (bytesOf twoReads))
         = Stopped s
     | Some AssertFailed | Some OutOfBounds => False
     | None => True
     end
  /\ match handleAll countingHandler 0 (wholePackets (bytesOf twoReads)) with
     | Returned t =>
         exists th : Thread,
           SocketIo.readControlSocketThread countingHandler
             (HookStops (ExitCode 1))
             (start 0 (repeat x00 (Z.to_nat sizeof_buf))) twoReads
           = Some (Goes th)
           /\ userObj th = t
     | Stopped s =>
         exists (k : nat) (th : Thread),
           (k < length twoReads)%nat
           /\ SocketIo.readControlSocketThread countingHandler
                (HookStops (ExitCode 1))
                (start 0 (repeat x00 (Z.to_nat sizeof_buf)))
                (firstn k twoReads)
              = Some (Goes th)
           /\ dispatched th = wholePackets (bytesOf (firstn k twoReads))
           /\ SocketIo.readControlSocketThread countingHandler
                (HookStops (ExitCode 1))
                (start 0 (repeat x00 (Z.to_nat sizeof_buf)))
                (firstn (S k) twoReads)
              = Some (Ends s)
           /\ handleAll countingHandler 0
                (wholePackets (bytesOf (firstn (S k) twoReads)))
              = Stopped s
     end.
Proof.
  split; [vm_compute; reflexivity|].
  split; [repeat constructor|].
  split; [vm_compute; reflexivity|].
  apply (reader_dispatches_whole_packets Z countingHandler
           (HookStops (ExitCode 1)) 0 (repeat x00 (Z.to_nat sizeof_buf))
           twoReads).
  - vm_compute. reflexivity.
  - repeat constructor.
  - vm_compute. reflexivity.
Defined.

(** A failure hook that returned would let the loop go on with the result
    of the failed read added to [accum]: -1 wraps to the largest [size_t]
    and the assertion fails.  The hook of the backend does not return. *)
Example returning_hook_fails_assertion :
  SocketIo.readControlSocketThread countingHandler HookReturns
    (start 0 (repeat x00 (Z.to_nat sizeof_buf))) [Err]
  = Some AssertFailed.
Proof. vm_compute. reflexivity. Qed.

(** C10. Control-reader buffer safety.  With a failure hook that does not
    return, as [connectionBrokenAbort], every iteration of the loop starts
    with [0 <= accum < sizeof(Packet)]; so the read asks for a positive
    number of bytes, which is what is left of the buffer behind [accum]; the
    assertion [accum <= sizeof(buf)] never fails, and the [memmove] of the
    trailing partial packet never leaves the buffer. *)
Theorem reader_buffer_safe :
  forall (T : Type) (h : T -> Packet -> Handled T) (stop : Stop)
         (t0 : T) (buf0 : list byte) (reads : list ReadResult) (flow : Flow),
  Z.of_nat (length buf0) = sizeof_buf ->
  SocketIo.readControlSocketThread h (HookStops stop) (start t0 buf0) reads
    = Some flow ->
  match flow with
  | Goes th =>
      0 <= accum th < sizeof_Packet
      /\ 0 < readCount th
      /\ accum th + readCount th = Z.of_nat (length (bufRaw th))
      /\ Z.of_nat (length (bufRaw th)) = sizeof_buf
  | Ends _ => True
  | AssertFailed | OutOfBounds => False
  end.
Proof.
  intros T h stop t0 buf0 reads flow Hlen Hrun.
  assert (Hreads :
            Forall (fun r => 0 < amtOf r \/ HookStops stop <> HookReturns)
              reads).
  { apply Forall_forall. intros r _. right. discriminate. }
  pose proof (run_between h _ t0 reads [] _ _ Hreads
                (between_start h t0 buf0 Hlen) Hrun) as H.
  destruct flow as [th|s| |]; try assumption; [|exact I].
  destruct H as [Hl Ha _ _ _]. unfold readCount, size_t.
  unfold sizeof_buf, sizeof_Packet in *.
  rewrite Z.mod_small by lia. lia.
Qed.

Lemma reader_buffer_safe_witness :
  exists flow : Flow,
    Z.of_nat (length (repeat x00 (Z.to_nat sizeof_buf))) = sizeof_buf
    /\ SocketIo.readControlSocketThread countingHandler
         (HookStops (ExitCode 1))
         (start 0 (repeat x00 (Z.to_nat sizeof_buf))) twoReads
       = Some flow
    /\ match flow with
       | Goes th =>
           0 <= accum th < sizeof_Packet
           /\ 0 < readCount th
           /\ accum th + readCount th = Z.of_nat (length (bufRaw th))
           /\ Z.of_nat (length (bufRaw th)) = sizeof_buf
       | Ends _ => True
       | AssertFailed | OutOfBounds => False
       end.
Proof.
  eexists. split; [vm_compute; reflexivity|]. split.
  - vm_compute. reflexivity.
  - apply (reader_buffer_safe Z countingHandler (ExitCode 1) 0
             (repeat x00 (Z.to_nat sizeof_buf)) twoReads).
    + vm_compute. reflexivity.
    + vm_compute. reflexivity.
Defined.

(* ================================================================= *)
(** * The I/O loop *)

Import Backend.

(** ** Integer conversions that change nothing *)

Lemma int32_t_id (x : Z) : - 2 ^ 31 <= x <= INT32_MAX -> int32_t x = x.
Proof.
  unfold int32_t, INT32_MAX. intros H. rewrite Z.mod_small; lia.
Qed.

Lemma size_t_id (x : Z) : 0 <= x < 2 ^ 64 -> size_t x = x.
Proof. unfold size_t. intros H. now apply Z.mod_small. Qed.

Lemma int32_t_range (x : Z) : - 2 ^ 31 <= int32_t x <= INT32_MAX.
Proof.
  unfold int32_t, INT32_MAX.
  pose proof (Z.mod_pos_bound (x + 2 ^ 31) (2 ^ 32)). lia.
Qed.

(** ** Case analysis of a step *)

(** Reduction of the projections and field updates of a state, and of
    nothing else: the integers stay as they are written. *)
Ltac red_state :=
  cbn [status ioloop world mainPc s2pPc p2sPc locWindow rcsPc rcsBuf rcsAccum
       windowMutex window windowParams stderr controlOut dataOut dataShutdown
       winsizes reaped credited set_reaped connectionBrokenAbort exit abort
       killedBy assertFailed
       eprint wrote_control wrote_data shut_data set_winsize credit
       set_window set_windowMutex set_status set_ioloop set_world set_mainPc
       set_s2pPc set_p2sPc set_locWindow set_rcsPc set_rcsBuf set_rcsAccum
       owner fst snd] in *.

(** Case analysis on the program points first, then on the tests of the
    branch that was taken. *)
Ltac break_step H :=
  repeat (red_state;
          first
            [ match type of H with
              | context [match ?x with _ => _ end] => is_var x; destruct x eqn:?
              end
            | match type of H with
              | context [if ?x then _ else _] => destruct x eqn:?
              end ]).

(** All the ways in which [H : step s e = Some s'] can hold, one goal for
    each, [s'] being replaced by the state the step builds. *)
Ltac step_cases s e H :=
  destruct s as [st [mtx win wp] [err cout dout dsh wsz rp cr]
                   mpc spc ppc loc rpc rbuf racc];
  unfold step, mainLoop, socketToPtyThread, ptyToSocketThread,
    Backend.readControlSocketThread, handlePacket, hasWindow, ptyReadCount
    in H;
  red_state;
  destruct st; try discriminate;
  destruct e as [reaped w msg|ok|amt|ok|amt|written|r|t| |written];
  break_step H; red_state; try discriminate;
  injection H as <-.

(** Conversions to [int32_t] and [size_t] of values that are in range. *)
Ltac unwrap :=
  repeat match goal with
         | H : context [int32_t ?x] |- _ =>
             rewrite (int32_t_id x) in H by (unfold INT32_MAX; lia)
         | H : context [size_t ?x] |- _ =>
             rewrite (size_t_id x) in H by lia
         | |- context [int32_t ?x] =>
             rewrite (int32_t_id x) by (unfold INT32_MAX; lia)
         | |- context [size_t ?x] =>
             rewrite (size_t_id x) by lia
         end.

(** Quotient and remainder of the division by [sizeof(Packet)]. *)
Ltac div8 x :=
  pose proof (Z.div_mod x 8 ltac:(lia));
  pose proof (Z.mod_pos_bound x 8 ltac:(lia)).

(** ** Every step keeps the invariants *)

(** What [main] establishes and every step keeps holds in every state of
    a session. *)
Lemma run_invariant (P : State -> Prop) :
  (forall s e s', P s -> step s e = Some s' -> P s') ->
  forall es s s', P s -> run s es = Some s' -> P s'.
Proof.
  intros Hstep. induction es as [|e es IH]; intros s s' Hs Hrun; cbn in Hrun.
  - now injection Hrun as <-.
  - destruct (step s e) as [s1|] eqn:E; [|discriminate].
    eapply IH; [|exact Hrun]. eapply Hstep; eauto.
Qed.

Lemma session_invariant (sizeArg thresholdArg : Z) (P : State -> Prop) :
  (forall s, main sizeArg thresholdArg = Some s -> P s) ->
  (forall s e s', P s -> step s e = Some s' -> P s') ->
  forall es s, session sizeArg thresholdArg es = Some s -> P s.
Proof.
  intros Hmain Hstep es s. unfold session.
  destruct (main sizeArg thresholdArg) as [s0|] eqn:E; [|discriminate].
  apply run_invariant; eauto.
Qed.

Lemma credit_step (s : State) (e : Event) (s' : State) :
  Credit s -> step s e = Some s' -> Credit s'.
Proof.
  intros [Hp Hw Hl Hs Hb Hr Hwr] H.
  step_cases s e H.
  all: specialize (Hb eq_refl).
  all: try specialize (Hr (or_introl eq_refl)).
  all: try specialize (Hr (or_intror eq_refl)).
  all: try specialize (Hwr _ eq_refl).
  all: unfold INT32_MAX in *; cbn [pendingCredit] in *.
  all: unwrap.
  all: split; red_state; cbn [pendingCredit]; intros; try discriminate;
    try lia; eauto.
  all: repeat match goal with
              | E : P2SWrite _ = P2SWrite _ |- _ => injection E as <-
              | E : _ \/ _ |- _ => destruct E; try discriminate
              end; try lia.
Qed.

Lemma credit_main (sizeArg thresholdArg : Z) (s : State) :
  main sizeArg thresholdArg = Some s -> Credit s.
Proof.
  unfold main, mainLoop_start. cbn [size threshold].
  destruct (_ && _) eqn:E; [|discriminate]. intros [= <-].
  pose proof (int32_t_range sizeArg) as Hrange. unfold INT32_MAX in *.
  split; cbn; intros; try discriminate; lia.
Qed.

Lemma credit_session (sizeArg thresholdArg : Z) (es : list Event)
    (s : State) :
  session sizeArg thresholdArg es = Some s -> Credit s.
Proof.
  apply (session_invariant sizeArg thresholdArg Credit);
    [exact (credit_main sizeArg thresholdArg) | exact credit_step].
Qed.

Lemma locks_step (s : State) (e : Event) (s' : State) :
  Locks s -> step s e = Some s' -> Locks s'.
Proof.
  intros [Ho Hx] H. unfold lockHolder in Ho.
  step_cases s e H.
  all: split; unfold lockHolder; red_state; cbn [rcsLocked p2sLocked] in *;
    try assumption; try reflexivity; try congruence.
  all: destruct (rcsLocked rpc); destruct (p2sLocked ppc);
    cbn in *; congruence.
Qed.

Lemma locks_main (sizeArg thresholdArg : Z) (s : State) :
  main sizeArg thresholdArg = Some s -> Locks s.
Proof.
  unfold main, mainLoop_start.
  destruct (_ && _); [|discriminate]. intros [= <-].
  split; reflexivity.
Qed.

Lemma locks_session (sizeArg thresholdArg : Z) (es : list Event)
    (s : State) :
  session sizeArg thresholdArg es = Some s -> Locks s.
Proof.
  apply (session_invariant sizeArg thresholdArg Locks);
    [exact (locks_main sizeArg thresholdArg) | exact locks_step].
Qed.

Lemma supervised_step (s : State) (e : Event) (s' : State) :
  Supervised s -> step s e = Some s' -> Supervised s'.
Proof.
  intros [Hrcs Hmain Hout Hexit] H.
  step_cases s e H.
  all: try contradiction.
  all: split; red_state; try assumption; try discriminate.
  all: repeat match goal with
              | H : exists _, _ |- _ => destruct H as [? H]
              | H : _ /\ _ |- _ => destruct H
              end; subst.
  all: try (split; [reflexivity|]); rewrite ?app_nil_l.
  all: eauto using Fatal.
Qed.

Lemma supervised_main (sizeArg thresholdArg : Z) (s : State) :
  main sizeArg thresholdArg = Some s -> Supervised s.
Proof.
  unfold main, mainLoop_start.
  destruct (_ && _); [|discriminate]. intros [= <-].
  split; cbn; auto; discriminate.
Qed.

Lemma supervised_session (sizeArg thresholdArg : Z) (es : list Event)
    (s : State) :
  session sizeArg thresholdArg es = Some s -> Supervised s.
Proof.
  apply (session_invariant sizeArg thresholdArg Supervised);
    [exact (supervised_main sizeArg thresholdArg) | exact supervised_step].
Qed.

Lemma buffered_step (s : State) (e : Event) (s' : State) :
  Buffered s -> step s e = Some s' -> Buffered s'.
Proof.
  intros [Hlen Hacc] H.
  step_cases s e H.
  all: try (split; red_state; assumption).
  all: unfold readPossible, sizeof_buf, sizeof_Packet in *.
  all: try (destruct r as [data|]; cbn [amtOf dataOf] in *; [|lia]).
  all: div8 racc; try div8 (racc + Z.of_nat (length data)).
  all: repeat match goal with H : _ /\ _ |- _ => destruct H end; subst.
  all: unwrap; try lia.
  all: split; red_state; unfold sizeof_buf, sizeof_Packet.
  all: unwrap.
  all: rewrite ?length_store by (rewrite ?length_sub by lia; lia).
  all: try lia.
Qed.

Lemma buffered_main (sizeArg thresholdArg : Z) (s : State) :
  main sizeArg thresholdArg = Some s -> Buffered s.
Proof.
  unfold main, mainLoop_start.
  destruct (_ && _); [|discriminate]. intros [= <-].
  split; cbn [rcsBuf rcsPc rcsAccum].
  - vm_compute. reflexivity.
  - unfold sizeof_Packet. lia.
Qed.

Lemma buffered_session (sizeArg thresholdArg : Z) (es : list Event)
    (s : State) :
  session sizeArg thresholdArg es = Some s -> Buffered s.
Proof.
  apply (session_invariant sizeArg thresholdArg Buffered);
    [exact (buffered_main sizeArg thresholdArg) | exact buffered_step].
Qed.

Lemma params_step (s : State) (e : Event) (s' : State) :
  step s e = Some s' -> windowParams (ioloop s') = windowParams (ioloop s).
Proof.
  intros H. step_cases s e H. all: reflexivity.
Qed.

Lemma params_session (sizeArg thresholdArg : Z) (es : list Event)
    (s : State) :
  session sizeArg thresholdArg es = Some s ->
  windowParams (ioloop s)
    = {| size := int32_t sizeArg; threshold := int32_t thresholdArg |}.
Proof.
  apply (session_invariant sizeArg thresholdArg
           (fun s =>
              windowParams (ioloop s)
              = {| size := int32_t sizeArg;
                   threshold := int32_t thresholdArg |})).
  - intros s0. unfold main, mainLoop_start.
    destruct (_ && _); [|discriminate]. now intros [= <-].
  - intros s0 e s1 H0 Hs. now rewrite (params_step _ _ _ Hs).
Qed.

(** ** The control reader in the process *)

(** X16. The reader of the process, which is the template instantiated with
    [handlePacket] and [connectionBrokenAbort] and interleaved with the
    other threads, keeps the bounds of the template: it starts every read
    with less than one packet in its buffer and asks for a positive count,
    and its assertion [accum <= sizeof(buf)] never aborts the process. *)
Lemma control_reader_assertion_holds :
  forall (sizeArg thresholdArg : Z) (es : list Event) (s : State),
  session sizeArg thresholdArg es = Some s ->
  rcsPc s = RcsRead ->
  0 <= rcsAccum s < sizeof_Packet
  /\ Z.of_nat (length (rcsBuf s)) = sizeof_buf
  /\ 0 < size_t (sizeof_buf - rcsAccum s)
  /\ (forall r s', step s (ControlReadReturns r) = Some s' ->
       status s' <> Aborted).
Proof.
  intros sizeArg thresholdArg es s H Hpc.
  destruct (buffered_session _ _ _ _ H) as [Hlen Hacc].
  rewrite Hpc in Hacc. unfold sizeof_buf, sizeof_Packet in *.
  repeat split; try lia.
  - rewrite size_t_id by lia. lia.
  - intros r s' Hstep. unfold step in Hstep. cbn [owner] in Hstep.
    destruct (status s) eqn:Est; try discriminate.
    unfold Backend.readControlSocketThread in Hstep. rewrite Hpc in Hstep.
    unfold readPossible, sizeof_buf, sizeof_Packet in Hstep.
    rewrite (size_t_id (256 * 8 - rcsAccum s)) in Hstep by lia.
    destruct (amtOf r <=? 256 * 8 - rcsAccum s) eqn:E1; [|discriminate].
    destruct (amtOf r <=? 0) eqn:E2.
    + injection Hstep as <-. cbn. discriminate.
    + red_state. rewrite (size_t_id (rcsAccum s + amtOf r)) in Hstep by lia.
      destruct (rcsAccum s + amtOf r <=? 256 * 8) eqn:E3; [|lia].
      injection Hstep as <-. red_state. rewrite Est. discriminate.
Qed.

(** ** The credit window *)

(** C1. Flow-control soundness.  In every state a session reaches, hence
    after every prefix of the worker's execution, the number of bytes
    written to the data socket is at most the configured window size plus
    the sum of the [IncreaseWindow] deltas accepted so far; equivalently,
    the bytes sent minus the bytes credited never exceed the size. *)
Theorem flow_control_sound :
  forall (sizeArg thresholdArg : Z) (es : list Event) (s : State),
  session sizeArg thresholdArg es = Some s ->
  dataOut (world s) <= int32_t sizeArg + credited (world s)
  /\ dataOut (world s) - credited (world s) <= int32_t sizeArg.
Proof.
  intros sizeArg thresholdArg es s H.
  pose proof (cr_sent s (credit_session _ _ _ _ H)) as Hs.
  rewrite (params_session _ _ _ _ H) in Hs. cbn [size] in Hs. lia.
Qed.

Lemma flow_control_sound_witness :
  exists s : State,
    session 16 8 throttled = Some s
    /\ (dataOut (world s) <= int32_t 16 + credited (world s)
        /\ dataOut (world s) - credited (world s) <= int32_t 16).
Proof.
  eexists. split.
  - vm_compute. reflexivity.
  - apply (flow_control_sound 16 8 throttled). vm_compute. reflexivity.
Defined.

(** In [throttled] 26 bytes were sent against a window of 16 and a credit
    of 16. *)
Example throttled_counts :
  option_map (fun s => (dataOut (world s), credited (world s), locWindow s))
    (session 16 8 throttled)
  = Some (26, 16, 6).
Proof. vm_compute. reflexivity. Qed.

(** C3, as the code has it.  In every state a session reaches, the local
    counter of the worker and the shared counter both lie between 0 and the
    window size.  A fold of the shared counter into the local one leaves
    the local counter in that range, because the fold's own assertion
    aborts the process otherwise.  That assertion holds whenever the credit
    accepted so far does not exceed the bytes sent; the assertion of the
    control reader alone does not imply it. *)
Theorem credit_counters_in_range :
  forall (sizeArg thresholdArg : Z) (es : list Event) (s : State),
  session sizeArg thresholdArg es = Some s ->
  0 <= locWindow s <= int32_t sizeArg
  /\ 0 <= window (ioloop s) <= int32_t sizeArg
  /\ 0 <= locWindow (fst (hasWindow true s)) <= int32_t sizeArg
  /\ (status s = Running ->
      credited (world s) <= dataOut (world s) ->
      status (fst (hasWindow true s)) = Running).
Proof.
  intros sizeArg thresholdArg es s H.
  destruct (credit_session _ _ _ _ H) as [Hp Hw Hl Hs Hb _ _].
  rewrite (params_session _ _ _ _ H) in *. cbn [size threshold] in *.
  unfold hasWindow. rewrite (params_session _ _ _ _ H). cbn [size threshold].
  red_state. unfold INT32_MAX in *.
  rewrite (int32_t_id (int32_t sizeArg - locWindow s))
    by (unfold INT32_MAX; lia).
  repeat split; try lia.
  - destruct (window (ioloop s) <=? int32_t sizeArg - locWindow s) eqn:E;
      cbn [fst]; red_state; [|lia].
    rewrite int32_t_id by (unfold INT32_MAX; lia). lia.
  - destruct (window (ioloop s) <=? int32_t sizeArg - locWindow s) eqn:E;
      cbn [fst]; red_state; [|lia].
    rewrite int32_t_id by (unfold INT32_MAX; lia). lia.
  - intros Hrun Hgr. specialize (Hb Hrun).
    destruct (window (ioloop s) <=? int32_t sizeArg - locWindow s) eqn:E;
      cbn [fst]; red_state; [assumption|lia].
Qed.

Lemma credit_counters_in_range_witness :
  exists s : State,
    session 16 8 throttled = Some s
    /\ (0 <= locWindow s <= int32_t 16
        /\ 0 <= window (ioloop s) <= int32_t 16
        /\ 0 <= locWindow (fst (hasWindow true s)) <= int32_t 16
        /\ (status s = Running ->
            credited (world s) <= dataOut (world s) ->
            status (fst (hasWindow true s)) = Running)).
Proof.
  eexists. split.
  - vm_compute. reflexivity.
  - apply (credit_counters_in_range 16 8 throttled). vm_compute. reflexivity.
Defined.

(** C3, as stated, fails on [overgranted]: the only [IncreaseWindow] packet
    received passed the assertion of the control reader (its 16 bytes are
    credited and in the shared counter, the reader is back at its read, the
    process runs), and yet the worker's next fold, with 7 bytes of local
    credit left of 16, fails the asserted [iw <= windowSize - locWindow]. *)
Lemma fold_assertion_fails_after_accepted_credit :
  option_map
    (fun s => (status s, rcsPc s, p2sPc s, credited (world s),
               window (ioloop s), locWindow s,
               status (fst (hasWindow true s))))
    (session 16 8 overgranted)
  = Some (Running, RcsRead, P2SHasWindow, 16, 16, 7, Aborted).
Proof. vm_compute. reflexivity. Qed.



(** In [blockedThenRead] the worker, out of credit, goes through the fold
    without lock and the wait before it stands at the read again. *)
Example blocked_worker_waits :
  option_map (fun s => (p2sPc s, locWindow s, windowMutex (ioloop s)))
    (session 16 8 (firstn 7 blockedThenRead))
  = Some (P2SWaiting, 0, None).
Proof. vm_compute. reflexivity. Qed.

(** ** The window mutex *)




(** ** The supervisor *)

(** C5, as the code has it.  The control socket carries nothing until
    [writePacket] has returned, and from then on exactly the one
    [ChildExitStatus] packet built from the status that [waitpid] stored:
    at most one packet per session, nothing after it.  A session that
    reaped the child has written the packet once the write succeeded; when
    the write fails, or another thread ends the process first, no packet is
    written. *)
Theorem exit_packet_written_at_most_once_and_last :
  forall (sizeArg thresholdArg : Z) (es : list Event) (s : State),
  session sizeArg thresholdArg es = Some s ->
  controlOut (world s)
  = match reaped (world s) with
    | Some wstatus =>
        if writePacketReturned (mainPc s) then [exitPacket wstatus] else []
    | None => []
    end
  /\ (reaped (world s) = None -> mainPc s = MWaitpid).
Proof.
  intros sizeArg thresholdArg es s H.
  destruct (supervised_session _ _ _ _ H) as [_ Hmain Hout _].
  destruct (mainPc s); cbn [writePacketReturned];
    try contradiction;
    repeat match goal with
           | H : exists _, _ |- _ => destruct H as [? H]
           | H : _ /\ _ |- _ => destruct H
           end;
    repeat match goal with
           | E : reaped _ = _ |- _ => rewrite E
           end;
    split; try assumption; try reflexivity; try discriminate.
Qed.

Lemma exit_packet_written_at_most_once_and_last_witness :
  exists s : State,
    session 64 16 cleanExit = Some s
    /\ (controlOut (world s)
        = match reaped (world s) with
          | Some wstatus =>
              if writePacketReturned (mainPc s) then [exitPacket wstatus]
              else []
          | None => []
          end
        /\ (reaped (world s) = None -> mainPc s = MWaitpid)).
Proof.
  eexists. split.
  - vm_compute. reflexivity.
  - apply (exit_packet_written_at_most_once_and_last 64 16 cleanExit).
    vm_compute. reflexivity.
Defined.

(** In [cleanExit] the one packet on the control socket is
    [ChildExitStatus] with status 0. *)
Example cleanExit_packet :
  option_map (fun s => controlOut (world s)) (session 64 16 cleanExit)
  = Some [ {| type := ChildExitStatus; u := 0 |} ].
Proof. vm_compute. reflexivity. Qed.

(** C5, as stated, fails on [reapedThenBroken]: the session reaped its
    child (status 0), [writeAllRestarting] failed, [writePacket] called
    [connectionBrokenAbort], and no packet was written. *)
Lemma reaped_session_without_exit_packet :
  option_map
    (fun s => (reaped (world s), controlOut (world s), status s,
               stderr (world s)))
    (session 64 16 reapedThenBroken)
  = Some (Some 0, [], Exited 1, [connectionBrokenText]).
Proof. vm_compute. reflexivity. Qed.

(** ** The exit status *)

Lemma land_255_range (x : Z) : 0 <= Z.land x 255 <= 255.
Proof.
  assert (E : Z.land x 255 = x mod 256).
  { change 255 with (Z.ones 8). apply Z.land_ones. lia. }
  rewrite E. pose proof (Z.mod_pos_bound x 256). lia.
Qed.

Lemma WEXITSTATUS_low_byte (w : Z) :
  WEXITSTATUS w = Z.land (Z.shiftr w 8) 255.
Proof. unfold WEXITSTATUS. now rewrite Z.shiftr_land. Qed.

Lemma childExitStatus_range (w : Z) : 0 <= childExitStatus w <= 255.
Proof.
  unfold childExitStatus. destruct (WIFEXITED w); [|lia].
  rewrite WEXITSTATUS_low_byte. apply land_255_range.
Qed.

(** The payload is what [mainLoop] computed: nothing is lost in the
    union. *)
Lemma exitPacket_exitStatus (w : Z) :
  exitStatus (exitPacket w) = childExitStatus w.
Proof.
  pose proof (childExitStatus_range w) as H.
  unfold exitStatus, exitPacket. cbn [u].
  unfold uint32_t. rewrite Z.mod_small by lia.
  apply int32_t_id. unfold INT32_MAX. lia.
Qed.

(** The payload in terms of the status word alone. *)
Lemma exit_payload_of_status_word (w : Z) :
  exitStatus (exitPacket w)
  = if WIFEXITED w then Z.land (Z.shiftr w 8) 255 else 1.
Proof.
  rewrite exitPacket_exitStatus. unfold childExitStatus.
  now rewrite WEXITSTATUS_low_byte.
Qed.

Lemma childExitStatus_exited (code : Z) :
  childExitStatus (waitStatus (ExitedNormally code)) = Z.land code 255.
Proof.
  unfold childExitStatus, WIFEXITED, WTERMSIG, WEXITSTATUS. cbn [waitStatus].
  pose proof (land_255_range code) as Hr.
  set (x := Z.land code 255) in *.
  assert (Hs : Z.shiftl x 8 = x * 2 ^ 8) by (apply Z.shiftl_mul_pow2; lia).
  assert (H127 : Z.land (Z.shiftl x 8) 127 = 0).
  { change 127 with (Z.ones 7). rewrite Z.land_ones by lia. rewrite Hs.
    replace (x * 2 ^ 8) with ((x * 2) * 2 ^ 7) by lia.
    apply Z.mod_mul. lia. }
  rewrite H127. cbn [Z.eqb].
  change 65280 with (Z.shiftl 255 8).
  rewrite <- Z.shiftl_land, Z.shiftr_shiftl_l by lia.
  rewrite Z.sub_diag, Z.shiftl_0_r.
  change 255 with (Z.ones 8). rewrite Z.land_ones by lia.
  apply Z.mod_small. lia.
Qed.

Lemma childExitStatus_signalled (sig : Z) (coreDumped : bool) :
  1 <= sig <= 127 ->
  childExitStatus (waitStatus (Signalled sig coreDumped)) = 1.
Proof.
  intros H. unfold childExitStatus, WIFEXITED, WTERMSIG. cbn [waitStatus].
  rewrite Z.land_lor_distr_l.
  assert (H1 : Z.land sig 127 = sig).
  { change 127 with (Z.ones 7). rewrite Z.land_ones by lia.
    apply Z.mod_small. lia. }
  assert (H2 : Z.land (if coreDumped then 128 else 0) 127 = 0)
    by now destruct coreDumped.
  rewrite H1, H2, Z.lor_0_r.
  destruct (sig =? 0) eqn:E; [lia|reflexivity].
Qed.

(** C6. Exit-status mapping.  For the status word of a child that exited
    normally, the payload of the [ChildExitStatus] packet is the low 8 bits
    of its exit code; for the status word of a child that a signal killed,
    with or without a core dump, the payload is 1. *)
Theorem exit_status_mapping :
  forall t : Termination,
  match t with
  | ExitedNormally _ => True
  | Signalled sig _ => 1 <= sig <= 127
  end ->
  type (exitPacket (waitStatus t)) = ChildExitStatus
  /\ exitStatus (exitPacket (waitStatus t))
     = match t with
       | ExitedNormally code => Z.land code 255
       | Signalled _ _ => 1
       end.
Proof.
  intros t Ht. split; [reflexivity|].
  rewrite exitPacket_exitStatus. destruct t as [code|sig core].
  - apply childExitStatus_exited.
  - now apply childExitStatus_signalled.
Qed.

Lemma exit_status_mapping_witness :
  (1 <= 9 <= 127)
  /\ (type (exitPacket (waitStatus (Signalled 9 false))) = ChildExitStatus
      /\ exitStatus (exitPacket (waitStatus (Signalled 9 false))) = 1).
Proof.
  split; [lia|]. apply (exit_status_mapping (Signalled 9 false)). cbn. lia.
Defined.

(** [exit(3)], [exit(259)] and [SIGKILL]. *)
Example exit_status_samples :
  map (fun t => exitStatus (exitPacket (waitStatus t)))
      [ExitedNormally 3; ExitedNormally 259; Signalled 9 false]
  = [3; 3; 1].
Proof. vm_compute. reflexivity. Qed.

(** ** Exit codes *)

(** The fatal errors: each of them takes a running process to [exit(1)]
    behind its diagnostic. *)
Lemma fatal_errors_exit_with_1 (s : State) :
  status s = Running ->
  (forall w msg, mainPc s = MWaitpid ->
     step s (WaitpidReturns false w msg)
     = Some (exit 1 (eprint (waitpidFailedText msg) s)))
  /\ (forall p, mainPc s = MWritePacket p ->
      step s (ControlWriteReturns false) = Some (connectionBrokenAbort s))
  /\ (forall r, rcsPc s = RcsRead ->
      readPossible (size_t (sizeof_buf - rcsAccum s)) r = true ->
      amtOf r <= 0 ->
      step s (ControlReadReturns r) = Some (connectionBrokenAbort s))
  /\ (forall amt1 written, p2sPc s = P2SWrite amt1 ->
      0 <= written < amt1 ->
      step s (SocketWriteReturns written)
      = Some (connectionBrokenAbort (wrote_data written s)))
  /\ (forall i n, rcsPc s = RcsFor i n -> i < n ->
      type (packetAt (rcsBuf s) i) <> SetSize ->
      type (packetAt (rcsBuf s) i) <> IncreaseWindow ->
      step s (Step ControlReader)
      = Some (exit 1
                (eprint (unexpectedPacketText (type (packetAt (rcsBuf s) i)))
                   s))).
Proof.
  intros Hrun. unfold step. rewrite Hrun. cbn [owner].
  repeat split.
  - intros w msg Hpc. unfold mainLoop. now rewrite Hpc.
  - intros p Hpc. unfold mainLoop. now rewrite Hpc.
  - intros r Hpc Hposs Hamt. unfold Backend.readControlSocketThread.
    rewrite Hpc, Hposs.
    destruct (amtOf r <=? 0) eqn:E; [reflexivity|lia].
  - intros amt1 written Hpc Hw. unfold ptyToSocketThread. rewrite Hpc.
    destruct ((0 <=? written) && (written <=? amt1)) eqn:E1; [|lia].
    destruct (written =? amt1) eqn:E2; [lia|reflexivity].
  - intros i n Hpc Hi H0 H1. unfold Backend.readControlSocketThread.
    rewrite Hpc. destruct (i <? n) eqn:E; [|lia].
    unfold handlePacket.
    destruct (type (packetAt (rcsBuf s) i) =? SetSize) eqn:E0; [lia|].
    destruct (type (packetAt (rcsBuf s) i) =? IncreaseWindow) eqn:E1; [lia|].
    reflexivity.
Qed.






(** A failed assertion writes its message and aborts: [overgranted],
    followed by the fold of the worker. *)
Example failed_assertion_prints_and_aborts :
  option_map (fun s => (status s, stderr (world s)))
    (session 16 8 (overgranted ++ [Step PtyToSocket]))
  = Some (Aborted, [assertionFailedText "iw <= windowSize - locWindow"]).
Proof. vm_compute. reflexivity. Qed.

(** A write to the data socket that raises SIGPIPE after two bytes of five
    ends the process without a diagnostic. *)
Example broken_pipe_ends_the_process :
  option_map (fun s => (status s, stderr (world s), dataOut (world s)))
    (session 16 8
       [Step PtyToSocket; PtyReadReturns 5; SocketWriteRaises 2])
  = Some (Killed SIGPIPE, [], 2).
Proof. vm_compute. reflexivity. Qed.

(** ** Protocol violations *)

(** C8. Protocol-violation handling.  For a packet whose type is none of
    [SetSize], [IncreaseWindow] and [ChildExitStatus], [handlePacket]
    prints the line "internal error: unexpected packet" followed by the
    type as a decimal number to standard error, and exits with code 1. *)
Theorem unexpected_packet_is_fatal :
  forall (i n : Z) (p : Packet) (s : State),
  type p <> SetSize -> type p <> IncreaseWindow ->
  type p <> ChildExitStatus ->
  status (handlePacket i n p s) = Exited 1
  /\ stderr (world (handlePacket i n p s))
     = stderr (world s)
         ++ [("internal error: unexpected packet " ++ decimal (type p) ++ nl)
               %string].
Proof.
  intros i n p s H0 H1 _. unfold handlePacket.
  destruct (type p =? SetSize) eqn:E0; [apply Z.eqb_eq in E0; contradiction|].
  destruct (type p =? IncreaseWindow) eqn:E1;
    [apply Z.eqb_eq in E1; contradiction|].
  split; reflexivity.
Qed.

Lemma unexpected_packet_is_fatal_witness :
  (type packet255 <> SetSize /\ type packet255 <> IncreaseWindow
   /\ type packet255 <> ChildExitStatus)
  /\ (status
        (handlePacket 0 1 packet255
           (mainLoop_start {| size := 64; threshold := 16 |}))
      = Exited 1
      /\ stderr
           (world
              (handlePacket 0 1 packet255
                 (mainLoop_start {| size := 64; threshold := 16 |})))
         = stderr (world (mainLoop_start {| size := 64; threshold := 16 |}))
             ++ [("internal error: unexpected packet "
                    ++ decimal (type packet255) ++ nl)%string]).
Proof.
  split.
  - repeat split; vm_compute; discriminate.
  - apply (unexpected_packet_is_fatal 0 1 packet255
             (mainLoop_start {| size := 64; threshold := 16 |}));
      vm_compute; discriminate.
Defined.

(** The type id is printed as [printf] prints an [int]. *)
Example unexpected_packet_255_text :
  unexpectedPacketText (type packet255)
  = ("internal error: unexpected packet 255" ++ nl)%string.
Proof. vm_compute. reflexivity. Qed.

(* ================================================================= *)
(** * More of SocketIo.h *)

(** ** TermSize *)

(** X1. [TermSize::operator==] holds exactly of equal sizes, [operator!=]
    exactly of different ones, and the order of the operands does not
    matter. *)
Theorem TermSize_eq_decides_equality :
  forall a o : TermSize,
  (TermSize_eq a o = true <-> a = o)
  /\ (TermSize_ne a o = true <-> a <> o)
  /\ TermSize_eq a o = TermSize_eq o a.
Proof.
  intros [c1 r1] [c2 r2]. unfold TermSize_ne, TermSize_eq. cbn [cols rows].
  assert (E : (c1 =? c2) && (r1 =? r2) = true
              <-> {| cols := c1; rows := r1 |} = {| cols := c2; rows := r2 |}).
  { rewrite andb_true_iff, !Z.eqb_eq. split.
    - intros [-> ->]. reflexivity.
    - intros [= -> ->]. split; reflexivity. }
  repeat split.
  - apply E.
  - apply E.
  - intros Hne Heq. apply E in Heq. rewrite Heq in Hne. discriminate.
  - intros Hne. destruct ((c1 =? c2) && (r1 =? r2)) eqn:Eb; [|reflexivity].
    exfalso. apply Hne, E. reflexivity.
  - now rewrite (Z.eqb_sym c1 c2), (Z.eqb_sym r1 r2).
Qed.

(** ** Packets as bytes *)

Lemma byteOf_value (x : Z) : Z.of_N (Byte.to_N (byteOf x)) = x mod 256.
Proof.
  unfold byteOf. pose proof (Z.mod_pos_bound x 256 ltac:(lia)) as Hb.
  destruct (Byte.of_N (Z.to_N (x mod 256))) as [b|] eqn:E.
  - apply Byte.to_of_N in E. rewrite E. lia.
  - apply Byte.of_N_None_iff in E. lia.
Qed.

Lemma length_bytesLE (n : nat) (x : Z) : length (bytesLE n x) = n.
Proof.
  revert x. induction n as [|n IH]; intros x; cbn; [|rewrite IH]; reflexivity.
Qed.

Lemma le_bytesLE (n : nat) (x : Z) :
  le (bytesLE n x) = x mod 256 ^ Z.of_nat n.
Proof.
  revert x. induction n as [|n IH]; intros x.
  - cbn. now rewrite Z.mod_1_r.
  - cbn [bytesLE le]. rewrite byteOf_value, IH.
    rewrite Nat2Z.inj_succ, Z.pow_succ_r by lia.
    rewrite Z.rem_mul_r by lia. reflexivity.
Qed.

Lemma le_range (bs : list byte) : 0 <= le bs < 256 ^ Z.of_nat (length bs).
Proof.
  induction bs as [|b bs IH].
  - cbn. lia.
  - cbn [le length]. rewrite Nat2Z.inj_succ, Z.pow_succ_r by lia.
    pose proof (Byte.to_N_bounded b). lia.
Qed.

Lemma int32_t_uint32_t (x : Z) : int32_t (uint32_t x) = int32_t x.
Proof.
  unfold int32_t, uint32_t. now rewrite Zplus_mod_idemp_l.
Qed.

Lemma decode_packetBytes (p : Packet) :
  decode (packetBytes p)
  = {| type := int32_t (type p); u := uint32_t (u p) |}.
Proof.
  unfold decode, packetBytes.
  rewrite firstn_app, skipn_app, !length_bytesLE.
  cbn [Nat.sub]. rewrite firstn_O, app_nil_r.
  rewrite (firstn_all2 (n := 4) (bytesLE 4 (uint32_t (type p))))
    by (rewrite length_bytesLE; lia).
  rewrite (skipn_all2 (n := 4) (bytesLE 4 (uint32_t (type p))))
    by (rewrite length_bytesLE; lia).
  cbn [app skipn].
  rewrite (firstn_all2 (n := 4) (bytesLE 4 (uint32_t (u p))))
    by (rewrite length_bytesLE; lia).
  rewrite !le_bytesLE. change (256 ^ Z.of_nat 4) with (2 ^ 32).
  f_equal.
  - fold (uint32_t (uint32_t (type p))). now rewrite !int32_t_uint32_t.
  - unfold uint32_t. apply Z.mod_mod. lia.
Qed.

Lemma decode_in_range (raw : list byte) : packetInRange (decode raw) = true.
Proof.
  unfold packetInRange, decode. cbn [type u].
  pose proof (int32_t_range (le (firstn 4 raw))) as Ht.
  pose proof (le_range (firstn 4 (skipn 4 raw))) as Hu.
  assert (Hl : (length (firstn 4 (skipn 4 raw)) <= 4)%nat)
    by apply firstn_le_length.
  assert (Hp : 256 ^ Z.of_nat (length (firstn 4 (skipn 4 raw))) <= 2 ^ 32).
  { change (2 ^ 32) with (256 ^ 4). apply Z.pow_le_mono_r; lia. }
  unfold INT32_MAX in *. lia.
Qed.

Lemma packetBytes_in_range (p : Packet) :
  packetInRange p = true -> decode (packetBytes p) = p.
Proof.
  intros H. rewrite decode_packetBytes. unfold packetInRange in H.
  destruct p as [t w]. cbn [type u] in *.
  rewrite int32_t_id by lia. unfold uint32_t. rewrite Z.mod_small by lia.
  reflexivity.
Qed.

Lemma length_packetBytes (p : Packet) :
  Z.of_nat (length (packetBytes p)) = sizeof_Packet.
Proof.
  unfold packetBytes. rewrite length_app, !length_bytesLE. reflexivity.
Qed.

(** The stream made of the images of packets holds these packets and
    nothing more. *)
Lemma wholePackets_images (ps : list Packet) :
  wholePackets (concat (map packetBytes ps))
  = map (fun p => decode (packetBytes p)) ps
  /\ trailingBytes (concat (map packetBytes ps)) = [].
Proof.
  induction ps as [|p ps [IHw IHt]].
  - split; reflexivity.
  - cbn [map concat].
    pose proof (length_packetBytes p) as Hl. unfold sizeof_Packet in Hl.
    assert (Hl' : length (packetBytes p) = 8%nat) by lia.
    assert (Hw : wholePackets (packetBytes p) = [decode (packetBytes p)]).
    { rewrite wholePackets_nat, Hl'. change (8 / 8)%nat with 1%nat.
      cbn [seq map]. change (8 * 0)%nat with 0%nat. cbn [skipn].
      rewrite firstn_all2 by lia. reflexivity. }
    assert (Ht : trailingBytes (packetBytes p) = []).
    { rewrite trailingBytes_nat, Hl'. change (8 * (8 / 8))%nat with 8%nat.
      apply skipn_all2. lia. }
    split.
    + rewrite wholePackets_app, Hw, Ht. cbn [app]. now rewrite IHw.
    + rewrite trailingBytes_app, Ht. cbn [app]. exact IHt.
Qed.

Lemma map_decode_images (ps : list Packet) :
  forallb packetInRange ps = true ->
  map (fun p => decode (packetBytes p)) ps = ps.
Proof.
  induction ps as [|p ps IH]; cbn [forallb map]; [reflexivity|].
  intros H. apply andb_true_iff in H as [Hp Hps].
  now rewrite packetBytes_in_range, IH.
Qed.

(** X2. What [writePacket] writes, the control reader reads back.  Let the
    reads of the control socket deliver, cut in any way into non-empty
    pieces of which none is longer than the reader asked for, the object
    representations of the packets [ps], whose fields hold values of their
    types.  Then the thread runs: when the handler returns on every packet
    of [ps], the reader has called it for exactly the packets [ps], in
    order, and holds no partial packet afterwards; when the handler stops
    the process on one of them, the reader runs up to the read that
    completes that packet and stops there.  The reader's assertion does not
    fail. *)
Theorem written_packets_are_read_back :
  forall (T : Type) (h : T -> Packet -> Handled T) (hook : Hook)
         (t0 : T) (buf0 : list byte) (ps : list Packet)
         (reads : list ReadResult),
  Z.of_nat (length buf0) = sizeof_buf ->
  forallb packetInRange ps = true ->
  Forall (fun r => 0 < amtOf r) reads ->
  readsFit [] reads = true ->
  bytesOf reads = concat (map packetBytes ps) ->
  match SocketIo.readControlSocketThread h hook (start t0 buf0) reads with
  | Some (Goes th) =>
      dispatched th = ps /\ accum th = 0
      /\ handleAll h t0 ps = Returned (userObj th)
  | Some (Ends s) => handleAll h t0 ps = Stopped s
  | Some AssertFailed | Some OutOfBounds => False
  | None => True
  end
  /\ match handleAll h t0 ps with
     | Returned t =>
         exists th : Thread,
           SocketIo.readControlSocketThread h hook (start t0 buf0) reads
           = Some (Goes th)
           /\ dispatched th = ps /\ accum th = 0 /\ userObj th = t
     | Stopped s =>
         exists (k : nat) (th : Thread),
           (k < length reads)%nat
           /\ SocketIo.readControlSocketThread h hook (start t0 buf0)
                (firstn k reads)
              = Some (Goes th)
           /\ SocketIo.readControlSocketThread h hook (start t0 buf0)
                (firstn (S k) reads)
              = Some (Ends s)
     end.
Proof.
  intros T h hook t0 buf0 ps reads Hlen Hps Hreads Hfit Hbytes.
  assert (Hreads' : Forall (fun r => 0 < amtOf r \/ hook <> HookReturns) reads).
  { eapply Forall_impl; [|exact Hreads]. cbn. intros r Hr. now left. }
  pose proof (between_start h t0 buf0 Hlen) as Hstart.
  destruct (wholePackets_images ps) as [Hw Ht].
  rewrite (map_decode_images ps Hps) in Hw.
  assert (Hgoes : forall th,
            SocketIo.readControlSocketThread h hook (start t0 buf0) reads
            = Some (Goes th) ->
            dispatched th = ps /\ accum th = 0
            /\ handleAll h t0 ps = Returned (userObj th)).
  { intros th Hrun.
    pose proof (run_between h hook t0 reads [] _ _ Hreads' Hstart Hrun) as H.
    cbn [app] in H. rewrite Hbytes in H.
    destruct H as [Hl Ha Hp Hd Hu]. rewrite Hw in *. rewrite Ht in Hp.
    repeat split; try assumption.
    unfold sizeof_buf, sizeof_Packet in *.
    assert (Hn : length (firstn (Z.to_nat (accum th)) (bufRaw th)) = 0%nat)
      by now rewrite Hp.
    rewrite length_firstn in Hn. lia. }
  split.
  - destruct (SocketIo.readControlSocketThread h hook (start t0 buf0) reads)
      as [flow|] eqn:Hrun; [|exact I].
    destruct flow as [th|s| |].
    + now apply Hgoes.
    + pose proof (run_between h hook t0 reads [] _ _ Hreads' Hstart Hrun)
        as H.
      cbn [app] in H. rewrite Hbytes, Hw in H. now apply H.
    + exact (run_between h hook t0 reads [] _ _ Hreads' Hstart Hrun).
    + exact (run_between h hook t0 reads [] _ _ Hreads' Hstart Hrun).
  - pose proof (reads_run h hook t0 reads [] _ Hreads Hfit Hstart) as Hr.
    cbn [app] in Hr. rewrite Hbytes, Hw in Hr.
    destruct (handleAll h t0 ps) as [t|s] eqn:Eh.
    + destruct Hr as (th & Hrun & Hu). exists th.
      destruct (Hgoes th Hrun) as (Hd & Ha & _). auto.
    + destruct Hr as (k & th & Hk & Hgo & Hend). exists k, th. auto.
Qed.

Lemma written_packets_are_read_back_witness :
  Z.of_nat (length (repeat x00 (Z.to_nat sizeof_buf))) = sizeof_buf
  /\ forallb packetInRange resizeAndGrant = true
  /\ Forall (fun r => 0 < amtOf r) inThreeReads
  /\ readsFit [] inThreeReads = true
  /\ bytesOf inThreeReads = concat (map packetBytes resizeAndGrant)
  /\ match
       SocketIo.readControlSocketThread countingHandler
         (HookStops (ExitCode 1))
         (start 0 (repeat x00 (Z.to_nat sizeof_buf))) inThreeReads
     with
     | Some (Goes th) =>
         dispatched th = resizeAndGrant /\ accum th = 0
         /\ handleAll countingHandler 0 resizeAndGrant
            = Returned (userObj th)
     | Some (Ends s) => handleAll countingHandler 0 resizeAndGrant = Stopped s
     | Some AssertFailed | Some OutOfBounds => False
     | None => True
     end
  /\ match handleAll countingHandler 0 resizeAndGrant with
     | Returned t =>
         exists th : Thread,
           SocketIo.readControlSocketThread countingHandler
             (HookStops (ExitCode 1))
             (start 0 (repeat x00 (Z.to_nat sizeof_buf))) inThreeReads
           = Some (Goes th)
           /\ dispatched th = resizeAndGrant /\ accum th = 0
           /\ userObj th = t
     | Stopped s =>
         exists (k : nat) (th : Thread),
           (k < length inThreeReads)%nat
           /\ SocketIo.readControlSocketThread countingHandler
                (HookStops (ExitCode 1))
                (start 0 (repeat x00 (Z.to_nat sizeof_buf)))
                (firstn k inThreeReads)
              = Some (Goes th)
           /\ SocketIo.readControlSocketThread countingHandler
                (HookStops (ExitCode 1))
                (start 0 (repeat x00 (Z.to_nat sizeof_buf)))
                (firstn (S k) inThreeReads)
              = Some (Ends s)
     end.
Proof.
  split; [vm_compute; reflexivity|].
  split; [vm_compute; reflexivity|].
  split; [repeat constructor|].
  split; [vm_compute; reflexivity|].
  split; [vm_compute; reflexivity|].
  apply (written_packets_are_read_back Z countingHandler
           (HookStops (ExitCode 1)) 0 (repeat x00 (Z.to_nat sizeof_buf))
           resizeAndGrant inThreeReads).
  - vm_compute. reflexivity.
  - vm_compute. reflexivity.
  - repeat constructor.
  - vm_compute. reflexivity.
  - vm_compute. reflexivity.
Defined.

(** The three reads of [inThreeReads] give the two packets. *)
Example inThreeReads_dispatched :
  option_map
    (fun flow =>
       match flow with
       | Goes th => (userObj th, dispatched th, accum th)
       | _ => (0, [], 0)
       end)
    (SocketIo.readControlSocketThread countingHandler (HookStops (ExitCode 1))
       (start 0 (repeat x00 (Z.to_nat sizeof_buf))) inThreeReads)
  = Some (2, resizeAndGrant, 0).
Proof. vm_compute. reflexivity. Qed.

(** ** The exit packet *)

(** X3. The exit packet on the wire, for any status word that [waitpid]
    stores: [writePacket] sends the tag 2 in the first four bytes, the exit
    status in the fifth and zeros in the last three; read back it is the
    same packet, and its status lies between 0 and 255. *)
Theorem exit_packet_on_the_wire :
  forall wstatus : Z,
  packetBytes (exitPacket wstatus)
  = [x02; x00; x00; x00; byteOf (childExitStatus wstatus); x00; x00; x00]
  /\ decode (packetBytes (exitPacket wstatus)) = exitPacket wstatus
  /\ 0 <= exitStatus (decode (packetBytes (exitPacket wstatus))) <= 255.
Proof.
  intros w. pose proof (childExitStatus_range w) as Hr.
  assert (Hin : packetInRange (exitPacket w) = true).
  { unfold packetInRange, exitPacket, ChildExitStatus, INT32_MAX, uint32_t.
    cbn [type u]. rewrite Z.mod_small by lia.
    repeat (apply andb_true_iff; split);
      first [apply Z.leb_le | apply Z.ltb_lt]; lia. }
  split; [|split].
  - unfold packetBytes, exitPacket, ChildExitStatus. cbn [type u].
    unfold uint32_t. rewrite Z.mod_mod by lia.
    rewrite (Z.mod_small (childExitStatus w)) by lia.
    change (bytesLE 4 (2 mod 2 ^ 32)) with [x02; x00; x00; x00].
    cbn [bytesLE app].
    rewrite (Z.div_small (childExitStatus w) 256) by lia.
    reflexivity.
  - now apply packetBytes_in_range.
  - rewrite (packetBytes_in_range _ Hin), exitPacket_exitStatus. exact Hr.
Qed.

(* ================================================================= *)
(** * More of backend/wslbridge-backend.cc *)

(** ** connectSocket *)

Lemma firstn_skipn_step (A : Type) (l : list A) (i n : nat) :
  firstn i l ++ firstn n (skipn i l) = firstn (i + n) l.
Proof.
  revert l. induction i as [|i IH]; intros l; cbn.
  - reflexivity.
  - destruct l as [|x l]; cbn.
    + now rewrite firstn_nil.
    + now rewrite IH.
Qed.

Lemma writeKey_progress (key : list byte) (writes : list Z) :
  forall (i : Z) (sent : list byte) (out : Connecting),
  Z.of_nat (length key) < 2 ^ 64 ->
  0 <= i <= Z.of_nat (length key) ->
  sent = firstn (Z.to_nat i) key ->
  writeKey key i sent writes = Some out ->
  match out with
  | ConnectReturned sent' =>
      sent' = key /\ Forall (fun actual => 0 < actual) writes
      /\ i + fold_right Z.add 0 writes = Z.of_nat (length key)
  | ConnectWriting j sent' =>
      sent' = firstn (Z.to_nat j) key
      /\ Forall (fun actual => 0 < actual) writes
      /\ j = i + fold_right Z.add 0 writes /\ j < Z.of_nat (length key)
  | ConnectAborted =>
      exists (ws : list Z) (actual : Z),
        writes = ws ++ [actual] /\ actual <= 0
        /\ Forall (fun a => 0 < a) ws
  end.
Proof.
  induction writes as [|actual rest IH]; intros i sent out Hkey Hi Hsent H.
  - cbn [writeKey] in H.
    destruct (i <? Z.of_nat (length key)) eqn:Elt; injection H as <-.
    + apply Z.ltb_lt in Elt. cbn [fold_right]. repeat split; auto; lia.
    + apply Z.ltb_ge in Elt. cbn [fold_right].
      assert (i = Z.of_nat (length key)) as -> by lia.
      rewrite Nat2Z.id in Hsent. rewrite firstn_all in Hsent.
      repeat split; auto; lia.
  - cbn [writeKey] in H.
    destruct (i <? Z.of_nat (length key)) eqn:Elt; [|discriminate].
    apply Z.ltb_lt in Elt.
    cbv zeta in H. unfold size_t in H.
    rewrite !(Z.mod_small (Z.of_nat (length key) - i)) in H by lia.
    destruct (actual <=? Z.of_nat (length key) - i) eqn:Ele; [|discriminate].
    apply Z.leb_le in Ele.
    destruct (0 <? actual) eqn:Epos; cbn [andb] in H.
    + apply Z.ltb_lt in Epos.
      rewrite (Z.mod_small actual) in H by lia.
      rewrite (Z.mod_small (i + actual)) in H by lia.
      apply Z.leb_le in Ele as Ele'. rewrite Ele' in H.
      apply IH in H; try lia.
      * destruct out as [sent'|j sent'|].
        -- destruct H as (H1 & H2 & H3). cbn [fold_right].
           repeat split; auto. lia.
        -- destruct H as (H1 & H2 & H3 & H4). cbn [fold_right].
           repeat split; auto; lia.
        -- destruct H as (ws & a & -> & Ha & Hws).
           exists (actual :: ws), a. repeat split; auto.
      * subst sent. unfold sub. rewrite firstn_skipn_step. f_equal. lia.
    + apply Z.ltb_ge in Epos.
      destruct rest; [|discriminate]. injection H as <-.
      exists [], actual. repeat split; auto.
Qed.

(** X4. [connectSocket] sends the key, all of it and nothing else.  When it
    returns, [connect] succeeded and the socket took exactly the bytes of
    the key, in writes that each took at least one byte.  While it is in the
    loop, the socket took the first [i] bytes of the key, [i] being the sum
    of what the writes returned, and bytes remain.  It aborts only when
    [connect] fails or the last [write] returns zero or less: the second
    half of the loop's assertion never fails.  (The key is shorter than
    [2 ^ 64] bytes, as every [std::string] is.) *)
Theorem connectSocket_sends_the_key :
  forall (key : list byte) (connectRet : Z) (writes : list Z)
         (out : Connecting),
  Z.of_nat (length key) < 2 ^ 64 ->
  connectSocket key connectRet writes = Some out ->
  match out with
  | ConnectReturned sent =>
      connectRet = 0 /\ sent = key
      /\ Forall (fun actual => 0 < actual) writes
      /\ fold_right Z.add 0 writes = Z.of_nat (length key)
  | ConnectWriting i sent =>
      connectRet = 0 /\ sent = firstn (Z.to_nat i) key
      /\ i = fold_right Z.add 0 writes /\ i < Z.of_nat (length key)
  | ConnectAborted =>
      connectRet <> 0
      \/ exists (ws : list Z) (actual : Z),
           writes = ws ++ [actual] /\ actual <= 0
           /\ Forall (fun a => 0 < a) ws
  end.
Proof.
  intros key connectRet writes out Hkey H. unfold connectSocket in H.
  destruct (connectRet =? 0) eqn:Ec.
  - apply Z.eqb_eq in Ec.
    apply (writeKey_progress key writes 0 [] out Hkey) in H;
      [|lia|reflexivity].
    destruct out as [sent|i sent|].
    + destruct H as (H1 & H2 & H3). repeat split; auto.
    + destruct H as (H1 & H2 & H3 & H4). repeat split; auto.
    + now right.
  - apply Z.eqb_neq in Ec. destruct writes; [|discriminate].
    injection H as <-. now left.
Qed.

Lemma connectSocket_sends_the_key_witness :
  exists out : Connecting,
    connectSocket someKey 0 [2; 3] = Some out
    /\ match out with
       | ConnectReturned sent =>
           0 = 0 /\ sent = someKey
           /\ Forall (fun actual => 0 < actual) [2; 3]
           /\ fold_right Z.add 0 [2; 3] = Z.of_nat (length someKey)
       | ConnectWriting i sent =>
           0 = 0 /\ sent = firstn (Z.to_nat i) someKey
           /\ i = fold_right Z.add 0 [2; 3]
           /\ i < Z.of_nat (length someKey)
       | ConnectAborted =>
           0 <> 0
           \/ exists (ws : list Z) (actual : Z),
                [2; 3] = ws ++ [actual] /\ actual <= 0
                /\ Forall (fun a => 0 < a) ws
       end.
Proof.
  eexists. split.
  - vm_compute. reflexivity.
  - apply (connectSocket_sends_the_key someKey 0 [2; 3]).
    + vm_compute. reflexivity.
    + vm_compute. reflexivity.
Defined.

(** ** socketToPtyThread *)

Lemma Thinned_refl (A : Type) (l : list A) : Thinned l l.
Proof. induction l; constructor; auto. Qed.

Lemma Thinned_nil (A : Type) (l : list A) : Thinned [] l.
Proof. induction l; constructor; auto. Qed.

Lemma Thinned_app (A : Type) (a b c d : list A) :
  Thinned a b -> Thinned c d -> Thinned (a ++ c) (b ++ d).
Proof. induction 1; intros Hc; cbn; try constructor; auto. Qed.

Lemma Thinned_firstn (A : Type) (n : nat) (l : list A) :
  Thinned (firstn n l) l.
Proof.
  revert l. induction n as [|n IH]; intros l.
  - apply Thinned_nil.
  - destruct l; cbn; constructor. apply IH.
Qed.

Lemma Thinned_length (A : Type) (a b : list A) :
  Thinned a b -> (length a <= length b)%nat.
Proof. induction 1; cbn; lia. Qed.

Lemma socketToPtyThread_run_from (ios : list (ReadResult * Z)) :
  forall (ptyIn : list byte) (out : Pumped),
  socketToPtyThread_run ptyIn ios = Some out ->
  exists added : list byte,
    ptyInOf out = ptyIn ++ added
    /\ Thinned added (bytesOf (map fst ios))
    /\ (Forall (fun io => 0 < amtOf (fst io) -> snd io = amtOf (fst io)) ios ->
        added = bytesOf (map fst ios))
    /\ match out with
       | PumpReturned _ =>
           exists (before : list (ReadResult * Z)) (r : ReadResult) (w : Z),
             ios = before ++ [(r, w)] /\ amtOf r <= 0
             /\ Forall (fun io => 0 < amtOf (fst io)) before
       | PumpReading _ => Forall (fun io => 0 < amtOf (fst io)) ios
       end.
Proof.
  induction ios as [|[r written] rest IH]; intros ptyIn out H.
  - cbn in H. injection H as <-. exists []. cbn [ptyInOf].
    rewrite app_nil_r. repeat split; auto. constructor.
  - cbn [socketToPtyThread_run] in H.
    destruct (readPossible 8192 r) eqn:Er; [|discriminate].
    destruct (amtOf r <=? 0) eqn:Ez.
    + apply Z.leb_le in Ez. destruct rest; [|discriminate].
      injection H as <-. exists []. cbn [ptyInOf]. rewrite app_nil_r.
      assert (Hd : dataOf r = []).
      { destruct r as [data|]; [|reflexivity]. cbn in Ez.
        destruct data; [reflexivity|cbn in Ez; lia]. }
      unfold bytesOf. cbn [map fst concat]. rewrite Hd. cbn [app].
      repeat split; auto; try constructor.
      exists [], r, written. repeat split; auto.
    + apply Z.leb_gt in Ez.
      destruct ((0 <=? written) && (written <=? amtOf r)) eqn:Ew;
        [|discriminate].
      apply andb_true_iff in Ew as [Ew1 Ew2].
      apply Z.leb_le in Ew1, Ew2.
      apply IH in H. destruct H as (added & Hout & Hthin & Hall & Hend).
      exists (sub (dataOf r) 0 written ++ added).
      assert (Hb : bytesOf (map fst ((r, written) :: rest))
                   = dataOf r ++ bytesOf (map fst rest)) by reflexivity.
      rewrite Hb. split; [|split; [|split]].
      * now rewrite Hout, app_assoc.
      * apply Thinned_app; [|exact Hthin]. unfold sub.
        change (Z.to_nat 0) with 0%nat. cbn [skipn]. apply Thinned_firstn.
      * intros Hf. inversion Hf as [|x l Hx Hl]; subst.
        cbn [fst snd] in Hx. rewrite (Hall Hl). f_equal.
        unfold sub. change (Z.to_nat 0) with 0%nat. cbn [skipn].
        apply firstn_all2. rewrite (Hx Ez).
        destruct r as [data|]; cbn in *; lia.
      * destruct out as [p|p].
        -- destruct Hend as (before & r' & w' & -> & Hr' & Hbefore).
           exists ((r, written) :: before), r', w'. repeat split; auto.
        -- constructor; auto.
Qed.

(** X5. [socketToPtyThread] forwards the data stream in order.  What the
    pty took is the stream of the data socket with bytes left out, none
    added, repeated or moved; it is the whole stream when every write to
    the pty was complete.  A write that fails does not end the thread: it
    returns only once a read returned zero or less, and until then every
    read delivered at least one byte. *)
Theorem socketToPtyThread_forwards_in_order :
  forall (ios : list (ReadResult * Z)) (out : Pumped),
  socketToPtyThread_run [] ios = Some out ->
  Thinned (ptyInOf out) (bytesOf (map fst ios))
  /\ (Forall (fun io => 0 < amtOf (fst io) -> snd io = amtOf (fst io)) ios ->
      ptyInOf out = bytesOf (map fst ios))
  /\ match out with
     | PumpReturned _ =>
         exists (before : list (ReadResult * Z)) (r : ReadResult) (w : Z),
           ios = before ++ [(r, w)] /\ amtOf r <= 0
           /\ Forall (fun io => 0 < amtOf (fst io)) before
     | PumpReading _ => Forall (fun io => 0 < amtOf (fst io)) ios
     end.
Proof.
  intros ios out H.
  apply socketToPtyThread_run_from in H.
  destruct H as (added & Hout & Hthin & Hall & Hend).
  cbn [app] in Hout. rewrite Hout. auto.
Qed.

Lemma socketToPtyThread_forwards_in_order_witness :
  exists out : Pumped,
    socketToPtyThread_run [] typed = Some out
    /\ Thinned (ptyInOf out) (bytesOf (map fst typed))
    /\ (Forall (fun io => 0 < amtOf (fst io) -> snd io = amtOf (fst io))
          typed ->
        ptyInOf out = bytesOf (map fst typed))
    /\ match out with
       | PumpReturned _ =>
           exists (before : list (ReadResult * Z)) (r : ReadResult) (w : Z),
             typed = before ++ [(r, w)] /\ amtOf r <= 0
             /\ Forall (fun io => 0 < amtOf (fst io)) before
       | PumpReading _ => Forall (fun io => 0 < amtOf (fst io)) typed
       end.
Proof.
  eexists. split.
  - vm_compute. reflexivity.
  - apply (socketToPtyThread_forwards_in_order typed).
    vm_compute. reflexivity.
Defined.

(** A write to the pty that fails after one byte of four loses the other
    three; the thread goes on with the next read. *)
Example failed_pty_write_is_ignored :
  socketToPtyThread_run []
    [ (Got [x6c; x73], 2); (Got [x20; x2d; x6c; x0a], 1); (Got [x61], 1) ]
  = Some (PumpReading [x6c; x73; x20; x61]).
Proof. vm_compute. reflexivity. Qed.

(** ** The worker, the wait and the end of the data *)

Lemma pumping_step (s : State) (e : Event) (s' : State) :
  Pumping s -> step s e = Some s' -> Pumping s'.
Proof.
  intros [Hshort Hshut] H.
  step_cases s e H.
  all: cbn [p2sShort] in *.
  all: split; red_state; cbn [p2sShort]; try assumption.
  all: try (intros _; first [ lia | apply Hshort; reflexivity ]).
  all: try (intros; discriminate).
  all: try (split; intros; try discriminate; try reflexivity;
            destruct Hshut as [Ha Hb]; auto;
            try (specialize (Ha ltac:(assumption)); discriminate)).
Qed.

Lemma pumping_main (sizeArg thresholdArg : Z) (s : State) :
  main sizeArg thresholdArg = Some s -> Pumping s.
Proof.
  unfold main, mainLoop_start.
  destruct (_ && _); [|discriminate]. intros [= <-].
  split; cbn; [discriminate|]. split; discriminate.
Qed.

Lemma pumping_session (sizeArg thresholdArg : Z) (es : list Event)
    (s : State) :
  session sizeArg thresholdArg es = Some s -> Pumping s.
Proof.
  apply (session_invariant sizeArg thresholdArg Pumping);
    [exact (pumping_main sizeArg thresholdArg) | exact pumping_step].
Qed.


Lemma returned_step (s : State) (e : Event) (s' : State) :
  step s e = Some s' ->
  p2sPc s = P2SReturned ->
  p2sPc s' = P2SReturned
  /\ dataOut (world s') = dataOut (world s)
  /\ dataShutdown (world s') = dataShutdown (world s).
Proof.
  intros H Hpc. step_cases s e H.
  all: try discriminate.
  all: repeat split; try reflexivity; try assumption.
Qed.

Lemma returned_run (es : list Event) :
  forall s s' : State,
  run s es = Some s' ->
  p2sPc s = P2SReturned ->
  p2sPc s' = P2SReturned
  /\ dataOut (world s') = dataOut (world s)
  /\ dataShutdown (world s') = dataShutdown (world s).
Proof.
  induction es as [|e es IH]; intros s s' Hrun Hpc; cbn [run] in Hrun.
  - injection Hrun as <-. auto.
  - destruct (step s e) as [s1|] eqn:E; [|discriminate].
    destruct (returned_step _ _ _ E Hpc) as (H1 & H2 & H3).
    destruct (IH _ _ Hrun H1) as (H4 & H5 & H6).
    repeat split; congruence.
Qed.

(** X6. The shutdown of the data socket is final.  In every state of a
    session the data socket is shut down exactly when [ptyToSocketThread]
    has returned, which it does when a read of the pty returns zero or
    less; whatever the process does afterwards, the socket stays shut down
    and not one more byte is written to it. *)
Theorem data_socket_shutdown_is_final :
  forall (sizeArg thresholdArg : Z) (es : list Event) (s : State),
  session sizeArg thresholdArg es = Some s ->
  (dataShutdown (world s) = true <-> p2sPc s = P2SReturned)
  /\ (dataShutdown (world s) = true ->
      forall (es' : list Event) (s' : State),
      run s es' = Some s' ->
      dataShutdown (world s') = true
      /\ dataOut (world s') = dataOut (world s)
      /\ p2sPc s' = P2SReturned).
Proof.
  intros sizeArg thresholdArg es s H.
  destruct (pumping_session _ _ _ _ H) as [_ Hshut].
  split; [exact Hshut|].
  intros Hd es' s' Hrun.
  destruct (returned_run es' s s' Hrun (proj1 Hshut Hd)) as (H1 & H2 & H3).
  repeat split; congruence.
Qed.

Lemma data_socket_shutdown_is_final_witness :
  exists s : State,
    session 16 8 ptyClosed = Some s
    /\ (dataShutdown (world s) = true <-> p2sPc s = P2SReturned)
    /\ (dataShutdown (world s) = true ->
        forall (es' : list Event) (s' : State),
        run s es' = Some s' ->
        dataShutdown (world s') = true
        /\ dataOut (world s') = dataOut (world s)
        /\ p2sPc s' = P2SReturned).
Proof.
  eexists. split.
  - vm_compute. reflexivity.
  - apply (data_socket_shutdown_is_final 16 8 ptyClosed).
    vm_compute. reflexivity.
Defined.

(** ** The window mutex, both sides *)

(** X7. Who holds the window mutex.  In every state of a session the
    worker holds it exactly from the moment its [unique_lock] or its wait
    acquired it until the wait released it or the lock went out of scope;
    the control reader holds it exactly around [ioloop->window += iw];
    no other thread ever holds it; and a worker blocked on the condition
    variable does not hold it. *)
Theorem window_mutex_discipline :
  forall (sizeArg thresholdArg : Z) (es : list Event) (s : State),
  session sizeArg thresholdArg es = Some s ->
  (windowMutex (ioloop s) = Some PtyToSocket
   <-> p2sPc s = P2SWaitPred \/ p2sPc s = P2SUnlock)
  /\ (windowMutex (ioloop s) = Some ControlReader
      <-> (exists i n iw, rcsPc s = RcsAdd i n iw)
          \/ (exists i n, rcsPc s = RcsUnlock i n))
  /\ windowMutex (ioloop s) <> Some Supervisor
  /\ windowMutex (ioloop s) <> Some SocketToPty
  /\ (p2sPc s = P2SWaiting -> windowMutex (ioloop s) <> Some PtyToSocket).
Proof.
  intros sizeArg thresholdArg es s H.
  destruct (locks_session _ _ _ _ H) as [Ho Hx].
  unfold lockHolder in Ho. rewrite Ho.
  destruct (rcsPc s) eqn:Er; destruct (p2sPc s) eqn:Ep;
    cbn [rcsLocked p2sLocked andb] in *; try discriminate.
  all: repeat split; try discriminate; eauto.
  all: try (intros [?|?]; discriminate).
  all: try (intros [(? & ? & ? & ?)|(? & ? & ?)]; discriminate).
  all: try (intros; discriminate).
Qed.

Lemma window_mutex_discipline_witness :
  exists s : State,
    session 16 8 blockedThenCredited = Some s
    /\ (windowMutex (ioloop s) = Some PtyToSocket
        <-> p2sPc s = P2SWaitPred \/ p2sPc s = P2SUnlock)
    /\ (windowMutex (ioloop s) = Some ControlReader
        <-> (exists i n iw, rcsPc s = RcsAdd i n iw)
            \/ (exists i n, rcsPc s = RcsUnlock i n))
    /\ windowMutex (ioloop s) <> Some Supervisor
    /\ windowMutex (ioloop s) <> Some SocketToPty
    /\ (p2sPc s = P2SWaiting -> windowMutex (ioloop s) <> Some PtyToSocket).
Proof.
  eexists. split.
  - vm_compute. reflexivity.
  - apply (window_mutex_discipline 16 8 blockedThenCredited).
    vm_compute. reflexivity.
Defined.

(** X8. Nothing blocks under the window mutex.  In every running state of
    a session the thread that holds the mutex can take its next step, and
    after at most two of its steps it has released the mutex or the process
    has stopped. *)
Theorem mutex_holder_never_blocks :
  forall (sizeArg thresholdArg : Z) (es : list Event) (s : State)
         (t : ThreadId),
  session sizeArg thresholdArg es = Some s ->
  status s = Running ->
  windowMutex (ioloop s) = Some t ->
  exists s1 : State,
    step s (Step t) = Some s1
    /\ (status s1 <> Running
        \/ windowMutex (ioloop s1) = None
        \/ exists s2 : State,
             step s1 (Step t) = Some s2
             /\ (status s2 <> Running \/ windowMutex (ioloop s2) = None)).
Proof.
  intros sizeArg thresholdArg es s t H Hrun Hmtx.
  destruct (locks_session _ _ _ _ H) as [Ho Hx].
  unfold lockHolder in Ho. rewrite Hmtx in Ho.
  destruct s as [st [mtx win wp] wd mpc spc ppc loc rpc rbuf racc].
  red_state. subst st. subst mtx.
  destruct rpc; cbn [rcsLocked andb] in *.
  all: try (destruct ppc; cbn [p2sLocked] in *; try discriminate;
            injection Ho as ->).
  all: try (injection Ho as ->).
  all: unfold step, ptyToSocketThread, Backend.readControlSocketThread,
         hasWindow; red_state.
  all: repeat match goal with
              | |- context [if ?c then _ else _] => destruct c eqn:?; red_state
              end.
  all: eexists; split; [reflexivity|]; red_state.
  all: try (left; discriminate).
  all: try (right; left; reflexivity).
  all: right; right; unfold step, ptyToSocketThread,
         Backend.readControlSocketThread; red_state.
  all: eexists; split; [reflexivity|]; red_state; right; reflexivity.
Qed.

Lemma mutex_holder_never_blocks_witness :
  exists s : State,
    session 16 8 (firstn 3 creditArrives) = Some s
    /\ status s = Running
    /\ windowMutex (ioloop s) = Some ControlReader
    /\ exists s1 : State,
         step s (Step ControlReader) = Some s1
         /\ (status s1 <> Running
             \/ windowMutex (ioloop s1) = None
             \/ exists s2 : State,
                  step s1 (Step ControlReader) = Some s2
                  /\ (status s2 <> Running
                      \/ windowMutex (ioloop s2) = None)).
Proof.
  eexists. split; [vm_compute; reflexivity|].
  split; [reflexivity|]. split; [reflexivity|].
  apply (mutex_holder_never_blocks 16 8 (firstn 3 creditArrives)).
  - vm_compute. reflexivity.
  - reflexivity.
  - reflexivity.
Defined.

(** ** handlePacket on a grant *)

(** X9. When [handlePacket] accepts a grant.  In every running state of a
    session in which the control reader is about to handle an
    [IncreaseWindow] packet, its assertion holds exactly when the amount is
    between 0 and the window size minus the shared counter: the part of the
    assertion on the counter itself never fails, and the subtraction does
    not overflow.  An accepted amount is credited and waits for the mutex;
    a rejected one aborts the process.  The shared counter and the
    parameters are not touched in this step. *)
Theorem increase_window_accepted_iff_it_fits :
  forall (sizeArg thresholdArg : Z) (es : list Event) (s : State) (i n : Z),
  session sizeArg thresholdArg es = Some s ->
  status s = Running ->
  rcsPc s = RcsFor i n ->
  i < n ->
  type (packetAt (rcsBuf s) i) = IncreaseWindow ->
  exists s' : State,
    step s (Step ControlReader) = Some s'
    /\ windowParams (ioloop s') = windowParams (ioloop s)
    /\ window (ioloop s') = window (ioloop s)
    /\ if (0 <=? windowAmount (packetAt (rcsBuf s) i))
          && (windowAmount (packetAt (rcsBuf s) i)
                <=? int32_t sizeArg - window (ioloop s))
       then status s' = Running
            /\ rcsPc s' = RcsLock i n (windowAmount (packetAt (rcsBuf s) i))
            /\ credited (world s')
               = credited (world s) + windowAmount (packetAt (rcsBuf s) i)
       else status s' = Aborted
            /\ credited (world s') = credited (world s).
Proof.
  intros sizeArg thresholdArg es s i n H Hrun Hpc Hin Hty.
  destruct (credit_session _ _ _ _ H) as [Hp Hw _ _ _ _ _].
  pose proof (params_session _ _ _ _ H) as Hparams.
  rewrite Hparams in Hp, Hw. cbn [size threshold] in Hp, Hw.
  rewrite Hpc in Hw. cbn [pendingCredit] in Hw.
  unfold step. rewrite Hrun. cbn [owner].
  unfold Backend.readControlSocketThread. rewrite Hpc.
  apply Z.ltb_lt in Hin. rewrite Hin.
  unfold handlePacket. rewrite Hty. cbn [Z.eqb IncreaseWindow SetSize].
  change (IncreaseWindow =? SetSize) with false.
  change (IncreaseWindow =? IncreaseWindow) with true. cbv iota.
  rewrite Hparams. cbn [size].
  set (iw := windowAmount (packetAt (rcsBuf s) i)).
  unfold INT32_MAX in *.
  rewrite (int32_t_id (int32_t sizeArg - window (ioloop s)))
    by (unfold INT32_MAX; lia).
  replace (0 <=? window (ioloop s)) with true
    by (symmetry; apply Z.leb_le; lia).
  replace (window (ioloop s) <=? int32_t sizeArg) with true
    by (symmetry; apply Z.leb_le; lia).
  cbn [andb].
  destruct ((0 <=? iw) && (iw <=? int32_t sizeArg - window (ioloop s)))
    eqn:E.
  - eexists. split; [reflexivity|]. red_state. auto.
  - eexists. split; [reflexivity|]. red_state. auto.
Qed.

Lemma increase_window_accepted_iff_it_fits_witness :
  exists s : State,
    session 16 8 (firstn 1 creditArrives) = Some s
    /\ exists s' : State,
         step s (Step ControlReader) = Some s'
         /\ windowParams (ioloop s') = windowParams (ioloop s)
         /\ window (ioloop s') = window (ioloop s)
         /\ if (0 <=? windowAmount (packetAt (rcsBuf s) 0))
               && (windowAmount (packetAt (rcsBuf s) 0)
                     <=? int32_t 16 - window (ioloop s))
            then status s' = Running
                 /\ rcsPc s'
                    = RcsLock 0 1 (windowAmount (packetAt (rcsBuf s) 0))
                 /\ credited (world s')
                    = credited (world s)
                      + windowAmount (packetAt (rcsBuf s) 0)
            else status s' = Aborted
                 /\ credited (world s') = credited (world s).
Proof.
  eexists. split; [vm_compute; reflexivity|].
  apply (increase_window_accepted_iff_it_fits 16 8 (firstn 1 creditArrives)).
  - vm_compute. reflexivity.
  - reflexivity.
  - reflexivity.
  - lia.
  - vm_compute. reflexivity.
Defined.

(** ** The credit, exactly *)

(** X10. Conservation of credit.  In every running state of a session the
    bytes written to the data socket, the local credit of the worker, the
    shared counter and the amount that [handlePacket] accepted but did not
    add yet sum up to the window size plus the amounts accepted so far. *)
Theorem credit_is_conserved :
  forall (sizeArg thresholdArg : Z) (es : list Event) (s : State),
  session sizeArg thresholdArg es = Some s ->
  status s = Running ->
  dataOut (world s) + locWindow s + window (ioloop s)
    + pendingCredit (rcsPc s)
  = int32_t sizeArg + credited (world s).
Proof.
  intros sizeArg thresholdArg es s H Hrun.
  pose proof (cr_balance s (credit_session _ _ _ _ H) Hrun) as Hb.
  rewrite (params_session _ _ _ _ H) in Hb. exact Hb.
Qed.

Lemma credit_is_conserved_witness :
  exists s : State,
    session 16 8 throttled = Some s
    /\ status s = Running
    /\ dataOut (world s) + locWindow s + window (ioloop s)
         + pendingCredit (rcsPc s)
       = int32_t 16 + credited (world s).
Proof.
  eexists. split; [vm_compute; reflexivity|]. split; [reflexivity|].
  apply (credit_is_conserved 16 8 throttled).
  - vm_compute. reflexivity.
  - reflexivity.
Defined.

(** X11. The worker waits only when it is short of credit.  Whenever the
    worker stands at its fold without lock, at the lock, at the predicate
    of the wait or blocked in the wait, its local credit is below the
    threshold. *)
Theorem worker_waits_only_when_short :
  forall (sizeArg thresholdArg : Z) (es : list Event) (s : State),
  session sizeArg thresholdArg es = Some s ->
  p2sShort (p2sPc s) = true ->
  locWindow s < int32_t thresholdArg.
Proof.
  intros sizeArg thresholdArg es s H Hpc.
  pose proof (pm_short s (pumping_session _ _ _ _ H) Hpc) as Hs.
  rewrite (params_session _ _ _ _ H) in Hs. exact Hs.
Qed.

Lemma worker_waits_only_when_short_witness :
  exists s : State,
    session 16 8 (firstn 7 blockedThenCredited) = Some s
    /\ p2sShort (p2sPc s) = true
    /\ locWindow s < int32_t 8.
Proof.
  eexists. split; [vm_compute; reflexivity|]. split; [reflexivity|].
  apply (worker_waits_only_when_short 16 8 (firstn 7 blockedThenCredited)).
  - vm_compute. reflexivity.
  - reflexivity.
Defined.

(** ** The window parameters *)

(** X12. The window parameters are fixed.  In every state of a session the
    parameters in the [IoLoop] are those that [main] read from its
    arguments, they satisfy the three assertions of [main], and the size is
    an [int32_t]: no thread writes them, so the copies that
    [ptyToSocketThread] takes at its start are always the current values. *)
Theorem window_parameters_are_fixed :
  forall (sizeArg thresholdArg : Z) (es : list Event) (s : State),
  session sizeArg thresholdArg es = Some s ->
  windowParams (ioloop s)
    = {| size := int32_t sizeArg; threshold := int32_t thresholdArg |}
  /\ 1 <= int32_t thresholdArg <= int32_t sizeArg
  /\ int32_t sizeArg <= INT32_MAX.
Proof.
  intros sizeArg thresholdArg es s H.
  pose proof (cr_params s (credit_session _ _ _ _ H)) as Hp.
  rewrite (params_session _ _ _ _ H) in Hp. cbn [size threshold] in Hp.
  split; [exact (params_session _ _ _ _ H)|]. lia.
Qed.

Lemma window_parameters_are_fixed_witness :
  exists s : State,
    session 16 8 throttled = Some s
    /\ windowParams (ioloop s)
       = {| size := int32_t 16; threshold := int32_t 8 |}
    /\ 1 <= int32_t 8 <= int32_t 16
    /\ int32_t 16 <= INT32_MAX.
Proof.
  eexists. split; [vm_compute; reflexivity|].
  apply (window_parameters_are_fixed 16 8 throttled).
  vm_compute. reflexivity.
Defined.

(** ** The assertions *)

(** X13. When the fold of the worker succeeds.  In every running state of a
    session the assertion [iw <= windowSize - locWindow] of [hasWindow]
    holds exactly when the credit added to the shared counter so far (the
    accepted amounts without the one still waiting in [handlePacket]) does
    not exceed the bytes written to the data socket.  The fold then moves
    the whole shared counter into the local one, without overflow, and
    answers whether the sum reaches the threshold. *)
Theorem fold_assertion_holds_iff_credit_was_spent :
  forall (sizeArg thresholdArg : Z) (es : list Event) (s : State),
  session sizeArg thresholdArg es = Some s ->
  status s = Running ->
  (status (fst (hasWindow true s)) = Running
   <-> credited (world s) - pendingCredit (rcsPc s) <= dataOut (world s))
  /\ (status (fst (hasWindow true s)) = Running ->
      locWindow (fst (hasWindow true s)) = locWindow s + window (ioloop s)
      /\ window (ioloop (fst (hasWindow true s))) = 0
      /\ snd (hasWindow true s)
         = (int32_t thresholdArg <=? locWindow s + window (ioloop s))).
Proof.
  intros sizeArg thresholdArg es s H Hrun.
  destruct (credit_session _ _ _ _ H) as [Hp Hw Hl Hs Hb _ _].
  specialize (Hb Hrun).
  unfold hasWindow. rewrite (params_session _ _ _ _ H) in *.
  cbn [size threshold] in *. red_state. unfold INT32_MAX in *.
  rewrite (int32_t_id (int32_t sizeArg - locWindow s))
    by (unfold INT32_MAX; lia).
  destruct (window (ioloop s) <=? int32_t sizeArg - locWindow s) eqn:E;
    cbn [fst snd]; red_state.
  - apply Z.leb_le in E.
    rewrite (int32_t_id (locWindow s + window (ioloop s)))
      by (unfold INT32_MAX; lia).
    repeat split; auto; lia.
  - apply Z.leb_gt in E. split.
    + split; [discriminate | lia].
    + discriminate.
Qed.

Lemma fold_assertion_holds_iff_credit_was_spent_witness :
  exists s : State,
    session 16 8 overgranted = Some s
    /\ status s = Running
    /\ (status (fst (hasWindow true s)) = Running
        <-> credited (world s) - pendingCredit (rcsPc s) <= dataOut (world s))
    /\ (status (fst (hasWindow true s)) = Running ->
        locWindow (fst (hasWindow true s)) = locWindow s + window (ioloop s)
        /\ window (ioloop (fst (hasWindow true s))) = 0
        /\ snd (hasWindow true s)
           = (int32_t 8 <=? locWindow s + window (ioloop s))).
Proof.
  eexists. split; [vm_compute; reflexivity|]. split; [reflexivity|].
  apply (fold_assertion_holds_iff_credit_was_spent 16 8 overgranted).
  - vm_compute. reflexivity.
  - reflexivity.
Defined.

(** X14. The only assertions of the I/O loop that can fail.  When a step of
    a session aborts the process, it is the fold of the worker, with more
    credit added than bytes written, or [handlePacket] on an
    [IncreaseWindow] packet whose amount does not fit.  The assertion at the
    top of the worker's loop and the reader's [accum <= sizeof(buf)] never
    fail. *)
Theorem only_credit_assertions_can_fail :
  forall (sizeArg thresholdArg : Z) (es : list Event) (s : State)
         (e : Event) (s' : State),
  session sizeArg thresholdArg es = Some s ->
  step s e = Some s' ->
  status s' = Aborted ->
  (e = Step PtyToSocket
   /\ (p2sPc s = P2SHasWindow \/ p2sPc s = P2SWaitPred)
   /\ dataOut (world s) < credited (world s) - pendingCredit (rcsPc s))
  \/ (e = Step ControlReader
      /\ exists i n : Z,
           rcsPc s = RcsFor i n /\ i < n
           /\ type (packetAt (rcsBuf s) i) = IncreaseWindow
           /\ ~ (0 <= windowAmount (packetAt (rcsBuf s) i)
                   <= int32_t sizeArg - window (ioloop s))).
Proof.
  intros sizeArg thresholdArg es s e s' H Hstep Hab.
  destruct (credit_session _ _ _ _ H) as [Hp Hw Hl Hs Hb _ _].
  destruct (buffered_session _ _ _ _ H) as [Hlen Hacc].
  pose proof (params_session _ _ _ _ H) as Hparams.
  step_cases s e Hstep.
  all: red_state; try discriminate.
  all: specialize (Hb eq_refl); cbn [pendingCredit size threshold] in *.
  all: subst wp; cbn [size threshold] in *.
  all: unfold INT32_MAX, readPossible, sizeof_buf, sizeof_Packet in *.
  all: try (destruct r as [data|]; cbn [amtOf dataOf] in *; [|lia]).
  all: unwrap; try lia.
  - left. repeat split; auto. lia.
  - left. repeat split; auto. lia.
  - right. split; [reflexivity|]. exists i, n.
    repeat split; lia.
Qed.

Lemma only_credit_assertions_can_fail_witness :
  exists s s' : State,
    session 16 8 overgranted = Some s
    /\ step s (Step PtyToSocket) = Some s'
    /\ status s' = Aborted
    /\ ((Step PtyToSocket = Step PtyToSocket
         /\ (p2sPc s = P2SHasWindow \/ p2sPc s = P2SWaitPred)
         /\ dataOut (world s) < credited (world s) - pendingCredit (rcsPc s))
        \/ (Step PtyToSocket = Step ControlReader
            /\ exists i n : Z,
                 rcsPc s = RcsFor i n /\ i < n
                 /\ type (packetAt (rcsBuf s) i) = IncreaseWindow
                 /\ ~ (0 <= windowAmount (packetAt (rcsBuf s) i)
                         <= int32_t 16 - window (ioloop s)))).
Proof.
  eexists. eexists. split; [vm_compute; reflexivity|].
  split; [vm_compute; reflexivity|]. split; [reflexivity|].
  eapply (only_credit_assertions_can_fail 16 8 overgranted _
            (Step PtyToSocket)).
  - vm_compute. reflexivity.
  - vm_compute. reflexivity.
  - reflexivity.
Defined.

(** ** The control stream, end to end *)

Lemma sizesSet_snoc (ps : list Packet) (p : Packet) :
  sizesSet (ps ++ [p])
  = sizesSet ps ++ (if type p =? SetSize then [termSize p] else []).
Proof.
  unfold sizesSet. rewrite filter_app, map_app. cbn [filter].
  now destruct (type p =? SetSize).
Qed.

Lemma creditGranted_snoc (ps : list Packet) (p : Packet) :
  creditGranted (ps ++ [p])
  = creditGranted ps
    + (if type p =? IncreaseWindow then windowAmount p else 0).
Proof.
  unfold creditGranted. rewrite filter_app, map_app. cbn [filter].
  induction (map windowAmount (filter (fun p0 => type p0 =? IncreaseWindow) ps))
    as [|x l IH]; cbn [app fold_right].
  - destruct (type p =? IncreaseWindow); cbn; lia.
  - rewrite IH. lia.
Qed.

Lemma knownType_snoc (ps : list Packet) (p : Packet) :
  forallb knownType (ps ++ [p]) = forallb knownType ps && knownType p.
Proof. rewrite forallb_app. cbn [forallb]. now rewrite andb_true_r. Qed.

Lemma seq_snoc_Z (i : Z) :
  0 <= i -> seq 0 (Z.to_nat (i + 1)) = seq 0 (Z.to_nat i) ++ [Z.to_nat i].
Proof.
  intros Hi. replace (Z.to_nat (i + 1)) with (S (Z.to_nat i)) by lia.
  now rewrite seq_S.
Qed.

Lemma batch_packets (buf : list byte) (n : Z) :
  0 <= n -> 8 * n <= Z.of_nat (length buf) ->
  wholePackets (firstn (Z.to_nat (8 * n)) buf)
  = map (fun j => packetAt buf (Z.of_nat j)) (seq 0 (Z.to_nat n)).
Proof.
  intros Hn Hle. unfold wholePackets, packetAt, sizeof_Packet.
  assert (Hlen : Z.of_nat (length (firstn (Z.to_nat (8 * n)) buf)) = 8 * n).
  { rewrite length_firstn. lia. }
  rewrite Hlen. replace (8 * n / 8) with n
    by (symmetry; rewrite Z.mul_comm; apply Z.div_mul; lia).
  apply map_ext_in. intros j Hj. apply in_seq in Hj. f_equal.
  rewrite <- (firstn_skipn (Z.to_nat (8 * n)) buf) at 2.
  symmetry. apply sub_app_l; lia.
Qed.

Lemma trailingBytes_whole (done batch : list byte) (n : Z) :
  trailingBytes done = [] ->
  0 <= n -> Z.of_nat (length batch) = 8 * n ->
  trailingBytes (done ++ batch) = []
  /\ wholePackets (done ++ batch) = wholePackets done ++ wholePackets batch.
Proof.
  intros Hd Hn Hlen. split.
  - rewrite trailingBytes_app, Hd. cbn [app].
    unfold trailingBytes, sizeof_Packet. rewrite Hlen.
    replace (8 * n / 8 * 8) with (8 * n)
      by (rewrite (Z.mul_comm 8 n), Z.div_mul; lia).
    apply skipn_all2. lia.
  - now rewrite wholePackets_app, Hd.
Qed.

Lemma wholePackets_short (l : list byte) :
  Z.of_nat (length l) < 8 -> wholePackets l = [] /\ trailingBytes l = l.
Proof.
  intros H. unfold wholePackets, trailingBytes, sizeof_Packet.
  rewrite Z.div_small by lia. split; reflexivity.
Qed.

Lemma firstn_store_end (buf data : list byte) (a : Z) :
  0 <= a -> a + Z.of_nat (length data) <= Z.of_nat (length buf) ->
  firstn (Z.to_nat (a + Z.of_nat (length data))) (store buf a data)
  = firstn (Z.to_nat a) buf ++ data.
Proof.
  intros Ha Hle. unfold store. rewrite app_assoc.
  rewrite firstn_app.
  assert (Hl : length (firstn (Z.to_nat a) buf ++ data)
               = Z.to_nat (a + Z.of_nat (length data))).
  { rewrite length_app, length_firstn. lia. }
  rewrite <- Hl, firstn_all, Nat.sub_diag, firstn_O. apply app_nil_r.
Qed.


Lemma received_step (s : State) (e : Event) (s' : State)
    (stream : list byte) :
  Buffered s -> Received stream s -> step s e = Some s' ->
  Received (stream ++ eventData e) s'.
Proof.
  intros [Hlen Hacc] (done & Hs & Ht & Hw & Hc & Hk) H.
  unfold Received, handledPackets in *.
  step_cases s e H.
  all: cbn [eventData handledInBatch] in *; rewrite ?app_nil_r.
  all: try (exists done; red_state; cbn [handledInBatch];
            repeat split; assumption).
  all: red_state; cbn [handledInBatch].
  all: unfold readPossible, sizeof_buf, sizeof_Packet in *.
  all: change (Z.to_nat 0) with 0%nat in *; cbn [seq map] in *.
  all: rewrite ?app_nil_r in *.
  - (* the read fails: nothing was delivered *)
    assert (Hd : dataOf r = []).
    { destruct r as [[|b data]|]; try reflexivity.
      match goal with
      | E : (amtOf _ <=? 0) = true |- _ =>
          apply Z.leb_le in E; cbn [amtOf Datatypes.length] in E; lia
      end. }
    rewrite Hd, app_nil_r. exists done. rewrite !app_nil_r.
    repeat split; assumption.
  - (* the read delivers [data] *)
    destruct r as [data|]; cbn [amtOf dataOf] in *; [|lia].
    unwrap. exists done. rewrite firstn_store_end by lia.
    rewrite Hs, app_assoc, !app_nil_r. repeat split; assumption.
  - (* the assertion on [accum] *)
    destruct r as [data|]; cbn [amtOf dataOf] in *; [|lia].
    unwrap. lia.
  - (* SetSize *)
    destruct Hacc as (Hi & Hn & Ha). exists done.
    rewrite seq_snoc_Z, map_app, app_assoc by lia. cbn [map].
    rewrite Z2Nat.id by lia.
    rewrite sizesSet_snoc, creditGranted_snoc, knownType_snoc, Hk.
    unfold knownType. rewrite Heqb0.
    apply Z.eqb_eq in Heqb0. rewrite Heqb0.
    change (SetSize =? IncreaseWindow) with false.
    rewrite <- Hw, <- Hc, Z.add_0_r. repeat split; assumption.
  - (* IncreaseWindow, accepted *)
    destruct Hacc as (Hi & Hn & Ha). exists done.
    rewrite seq_snoc_Z, map_app, app_assoc by lia. cbn [map].
    rewrite Z2Nat.id by lia.
    rewrite sizesSet_snoc, creditGranted_snoc, knownType_snoc, Hk.
    unfold knownType. rewrite Heqb0, Heqb1.
    rewrite <- Hw, <- Hc, app_nil_r. repeat split; assumption.
  - (* the end of the batch: memmove *)
    destruct Hacc as (Hi & Hn & Ha). apply Z.ltb_ge in Heqb.
    assert (i = n) by lia. subst i.
    div8 racc. rewrite <- Hn in *.
    replace (n * 8) with (8 * n) by lia.
    unwrap.
    destruct (trailingBytes_whole done (firstn (Z.to_nat (8 * n)) rbuf) n Ht)
      as [Ht' Hw']; [lia | rewrite length_firstn; lia |].
    exists (done ++ firstn (Z.to_nat (8 * n)) rbuf).
    rewrite !app_nil_r, Hw', batch_packets by lia.
    repeat split; try assumption.
    rewrite Hs, <- app_assoc. f_equal.
    unfold store. change (Z.to_nat 0) with 0%nat. cbn [firstn app].
    rewrite firstn_app.
    assert (Hl : length (sub rbuf (8 * n) (racc - 8 * n))
                 = Z.to_nat (racc - 8 * n)).
    { apply Nat2Z.inj. rewrite length_sub by lia. lia. }
    rewrite Hl, Nat.sub_diag, firstn_O, app_nil_r.
    rewrite <- Hl, firstn_all. unfold sub.
    rewrite firstn_skipn_step. f_equal. lia.
Qed.

Lemma received_run (es : list Event) :
  forall (s s' : State) (stream : list byte),
  Buffered s -> Received stream s -> run s es = Some s' ->
  Received (stream ++ controlIn es) s'.
Proof.
  induction es as [|e es IH]; intros s s' stream Hb Hr Hrun;
    cbn [run] in Hrun.
  - injection Hrun as <-. unfold controlIn. cbn [map concat].
    now rewrite app_nil_r.
  - destruct (step s e) as [s1|] eqn:E; [|discriminate].
    change (controlIn (e :: es)) with (eventData e ++ controlIn es).
    rewrite app_assoc.
    apply (IH s1 s' _ (buffered_step _ _ _ Hb E)
              (received_step _ _ _ _ Hb Hr E) Hrun).
Qed.

Lemma received_session (sizeArg thresholdArg : Z) (es : list Event)
    (s : State) :
  session sizeArg thresholdArg es = Some s -> Received (controlIn es) s.
Proof.
  unfold session.
  destruct (main sizeArg thresholdArg) as [s0|] eqn:E; [|discriminate].
  intros Hrun.
  apply (received_run es s0 s [] (buffered_main _ _ _ E)); [|exact Hrun].
  unfold main in E. destruct (_ && _); [|discriminate].
  injection E as <-. exists []. cbn. repeat split; reflexivity.
Qed.

(** X15. The control stream is applied packet by packet.  Whenever the
    control reader of a session stands at its read, whatever the other
    threads did in between, the terminal sizes set on the pty are those of
    the [SetSize] packets of the stream read so far, in order; the credit
    accepted is the sum of the amounts of its [IncreaseWindow] packets; the
    stream held no packet of another type; and the buffer starts with the
    trailing partial packet of the stream. *)
Theorem control_stream_is_applied :
  forall (sizeArg thresholdArg : Z) (es : list Event) (s : State),
  session sizeArg thresholdArg es = Some s ->
  rcsPc s = RcsRead ->
  winsizes (world s) = sizesSet (wholePackets (controlIn es))
  /\ credited (world s) = creditGranted (wholePackets (controlIn es))
  /\ forallb knownType (wholePackets (controlIn es)) = true
  /\ firstn (Z.to_nat (rcsAccum s)) (rcsBuf s) = trailingBytes (controlIn es).
Proof.
  intros sizeArg thresholdArg es s H Hpc.
  destruct (received_session _ _ _ _ H) as (done & Hs & Ht & Hw & Hc & Hk).
  destruct (buffered_session _ _ _ _ H) as [Hlen Hacc].
  unfold handledPackets in *. rewrite Hpc in *. cbn [handledInBatch] in *.
  change (Z.to_nat 0) with 0%nat in *. cbn [seq map] in *.
  rewrite app_nil_r in *.
  unfold sizeof_buf, sizeof_Packet in *.
  destruct (wholePackets_short (firstn (Z.to_nat (rcsAccum s)) (rcsBuf s)))
    as [Hnone Hall]; [rewrite length_firstn; lia|].
  rewrite Hs, wholePackets_app, trailingBytes_app, Ht. cbn [app].
  rewrite Hnone, Hall, app_nil_r. auto.
Qed.

Lemma control_stream_is_applied_witness :
  exists s : State,
    session 16 8 resizedAndCredited = Some s
    /\ rcsPc s = RcsRead
    /\ winsizes (world s)
       = sizesSet (wholePackets (controlIn resizedAndCredited))
    /\ credited (world s)
       = creditGranted (wholePackets (controlIn resizedAndCredited))
    /\ forallb knownType (wholePackets (controlIn resizedAndCredited)) = true
    /\ firstn (Z.to_nat (rcsAccum s)) (rcsBuf s)
       = trailingBytes (controlIn resizedAndCredited).
Proof.
  eexists. split; [vm_compute; reflexivity|]. split; [reflexivity|].
  apply (control_stream_is_applied 16 8 resizedAndCredited).
  - vm_compute. reflexivity.
  - reflexivity.
Defined.

(** In [resizedAndCredited] the pty was set to 80 columns and 24 rows and 16
    bytes were credited. *)
Example resized_and_credited :
  option_map
    (fun s => (winsizes (world s), credited (world s), window (ioloop s),
               rcsPc s, rcsAccum s))
    (session 16 8 resizedAndCredited)
  = Some ([ {| cols := 80; rows := 24 |} ], 16, 16, RcsRead, 0).
Proof. vm_compute. reflexivity. Qed.

(** ** The assertion of the control reader *)

Lemma control_reader_assertion_holds_witness :
  exists s : State,
    session 16 8 resizedAndCredited = Some s
    /\ rcsPc s = RcsRead
    /\ 0 <= rcsAccum s < sizeof_Packet
    /\ Z.of_nat (length (rcsBuf s)) = sizeof_buf
    /\ 0 < size_t (sizeof_buf - rcsAccum s)
    /\ (forall r s', step s (ControlReadReturns r) = Some s' ->
         status s' <> Aborted).
Proof.
  eexists. split; [vm_compute; reflexivity|]. split; [reflexivity|].
  apply (control_reader_assertion_holds 16 8 resizedAndCredited).
  - vm_compute. reflexivity.
  - reflexivity.
Defined.
